(** * Verification of the toy utilities of the TypeScript handbook recap

    Source files covered:
    - [src/generics.ts]: [simpleState], the [Rank] interface and [ranker];
    - [src/abstract.ts] (second part): [pluck] and the [dogs] sample data.

    The development is a shallow embedding: every TypeScript function is
    a Rocq function of the same name, and the ECMAScript built-ins the
    code calls ([Array.prototype.map], [Array.prototype.sort], property
    lookup, number subtraction) are modelled next to it. *)

From Stdlib Require Import QArith Lqa.
From stdpp Require Import base option list sorting gmap strings.

Close Scope Q_scope.

(** ** ECMAScript numbers

    The [number] type of the source is IEEE-754 binary64.  The only
    arithmetic the code performs is the subtraction [a.rank - b.rank]
    inside the comparator, whose result the sort consumes through its
    sign alone.  Subtracting two finite doubles yields a result whose
    sign is the sign of the exact difference (gradual underflow keeps a
    non-zero difference non-zero, and overflow keeps the sign), so finite
    values are represented by rationals with exact subtraction; the two
    infinities and NaN are kept as separate constructors because they
    change what the comparator returns. *)
Module Number.

Inductive number : Type :=
  | NaN
  | NegInf
  | Fin (q : Q)
  | PosInf.

Definition zero : number := Fin 0%Q.

(** [a - b] on numbers. *)
Definition num_sub (a b : number) : number :=
  match a, b with
  | NaN, _ => NaN
  | _, NaN => NaN
  | PosInf, PosInf => NaN
  | NegInf, NegInf => NaN
  | PosInf, _ => PosInf
  | NegInf, _ => NegInf
  | Fin _, PosInf => NegInf
  | Fin _, NegInf => PosInf
  | Fin x, Fin y => Fin (x - y)%Q
  end.

(** The ordering of two numbers; [None] when either one is NaN, in which
    case every relational operator of the language answers [false]. *)
Definition num_compare (a b : number) : option comparison :=
  match a, b with
  | NaN, _ => None
  | _, NaN => None
  | NegInf, NegInf => Some Eq
  | PosInf, PosInf => Some Eq
  | NegInf, _ => Some Lt
  | _, PosInf => Some Lt
  | PosInf, _ => Some Gt
  | _, NegInf => Some Gt
  | Fin x, Fin y => Some (x ?= y)%Q
  end.

(** [a < b], [a <= b] and [a === b]. *)
Definition num_ltb (a b : number) : bool :=
  match num_compare a b with Some Lt => true | _ => false end.

Definition num_leb (a b : number) : bool :=
  match num_compare a b with Some Lt | Some Eq => true | _ => false end.

Definition num_eqb (a b : number) : bool :=
  match num_compare a b with Some Eq => true | _ => false end.

(** Sign of a number that is not NaN. *)
Definition num_sign (v : number) : comparison :=
  match num_compare v zero with Some c => c | None => Eq end.

(** *** Facts about the ordering of numbers *)

Lemma Qcompare_sub_zero (x y : Q) : (x - y ?= 0)%Q = (x ?= y)%Q.
Proof.
  destruct (Qcompare_spec x y) as [He|Hl|Hg].
  - apply (proj1 (Qeq_alt _ _)). lra.
  - apply (proj1 (Qlt_alt _ _)). lra.
  - apply (proj1 (Qgt_alt _ _)). lra.
Qed.

Lemma num_compare_is_Some (a b : number) :
  a ≠ NaN → b ≠ NaN → is_Some (num_compare a b).
Proof. destruct a, b; simpl; intros; eauto; congruence. Qed.

Lemma num_compare_not_NaN (a b : number) c :
  num_compare a b = Some c → a ≠ NaN ∧ b ≠ NaN.
Proof. destruct a, b; simpl; intros; split; congruence. Qed.

Lemma num_compare_refl (a : number) : a ≠ NaN → num_compare a a = Some Eq.
Proof.
  destruct a; simpl; intros; try congruence.
  f_equal. apply (proj1 (Qeq_alt _ _)). reflexivity.
Qed.

Lemma num_compare_antisym (a b : number) c :
  num_compare a b = Some c → num_compare b a = Some (CompOpp c).
Proof.
  destruct a, b; simpl; intros; simplify_eq; try reflexivity.
  by rewrite Qcompare_antisym.
Qed.

Lemma num_compare_trans (a b c : number) o :
  num_compare a b = Some o → num_compare b c = Some o →
  num_compare a c = Some o.
Proof.
  destruct a as [| |x|], b as [| |y|], c as [| |z|]; simpl; intros H1 H2;
    try congruence.
  injection H1 as H1. injection H2 as H2. f_equal. destruct o.
  - apply (proj1 (Qeq_alt _ _)).
    apply Qeq_trans with y; by apply (proj2 (Qeq_alt _ _)).
  - apply (proj1 (Qlt_alt _ _)).
    apply Qlt_trans with y; by apply (proj2 (Qlt_alt _ _)).
  - apply (proj1 (Qgt_alt _ _)).
    apply Qlt_trans with y; by apply (proj2 (Qgt_alt _ _)).
Qed.

(** The sign of [a - b], read as the sort reads it (NaN as zero), is the
    ordering of [a] and [b] whenever neither is NaN. *)
Lemma num_sign_sub (a b : number) c :
  num_compare a b = Some c →
  num_sign (match num_sub a b with NaN => zero | v => v end) = c.
Proof.
  destruct a as [| |x|], b as [| |y|]; simpl; intros; simplify_eq;
    try reflexivity.
  unfold num_sign; simpl. apply Qcompare_sub_zero.
Qed.

Lemma num_leb_compare (a b : number) c :
  num_compare b a = Some c → c ≠ Lt → num_leb a b = true.
Proof.
  intros Hc Hne. apply num_compare_antisym in Hc.
  unfold num_leb. rewrite Hc. by destruct c.
Qed.

Lemma num_eqb_compare (a b : number) :
  num_eqb a b = true ↔ num_compare a b = Some Eq.
Proof.
  unfold num_eqb. destruct (num_compare a b) as [[]|]; split; congruence.
Qed.

End Number.
Export Number.

(** ** [Array.prototype.sort]

    The sort is a built-in of the host engine.  ECMA-262 does not fix an
    algorithm; it fixes how the comparator result is read ([SortCompare])
    and what the result must satisfy when the comparator is a consistent
    comparator for the elements.  The engine is therefore an interface
    ([SortEngine]) whose laws are the ones of the standard, and the
    properties of [ranker] are proved for every engine.  One concrete
    engine is given in [ShortArraySort] so that everything can be
    evaluated. *)
Module Sort.

(** ECMA-262 SortCompare with a user comparator: the comparator result
    is used as it is, except that NaN is replaced by [+0]. *)
Definition SortCompare {A} (comparefn : A → A → number) (x y : A) : number :=
  match comparefn x y with
  | NaN => zero
  | v => v
  end.

(** The three-way outcome the engine acts on: [SortCompare(x, y)] is
    negative, zero or positive. *)
Definition sort_order {A} (comparefn : A → A → number) (x y : A) : comparison :=
  num_sign (SortCompare comparefn x y).

(** The test [SortCompare(x, y) < 0] as engines write it. *)
Definition order_lt {A} (comparefn : A → A → number) (x y : A) : bool :=
  num_ltb (SortCompare comparefn x y) zero.

(** A consistent comparator for the elements of [l] (ECMA-262,
    Array.prototype.sort): [=] is reflexive and symmetric, and each of
    [<], [=] and [>] is transitive. *)
Record consistent {A} (comparefn : A → A → number) (l : list A) : Prop := {
  consistent_refl a : a ∈ l → sort_order comparefn a a = Eq;
  consistent_sym a b :
    a ∈ l → b ∈ l →
    sort_order comparefn a b = Eq → sort_order comparefn b a = Eq;
  consistent_trans o a b c :
    a ∈ l → b ∈ l → c ∈ l →
    sort_order comparefn a b = o → sort_order comparefn b c = o →
    sort_order comparefn a c = o
}.

(** [not_after comparefn x y]: [y] may stand after [x], that is [y] does
    not compare less than [x]. *)
Definition not_after {A} (comparefn : A → A → number) (x y : A) : Prop :=
  sort_order comparefn y x ≠ Lt.

(** The sort order: no element stands after one it compares less than. *)
Definition ordered {A} (comparefn : A → A → number) (l : list A) : Prop :=
  StronglySorted (not_after comparefn) l.

(** Elements that compare equal to [x]. *)
Definition same_class {A} (comparefn : A → A → number) (x y : A) : Prop :=
  sort_order comparefn x y = Eq.

Global Instance same_class_dec {A} (comparefn : A → A → number) x y :
  Decision (same_class comparefn x y).
Proof.
  unfold same_class.
  destruct (sort_order comparefn x y); (by left) || (by right).
Defined.

(** The host engine.  [Array_sort_perm] holds whatever the comparator
    does: the sort only moves elements.  [Array_sort_natural] says that
    the engine looks at the elements through the comparator only.  The
    last two laws are the sort order and the stability that ECMA-262
    (2019 and later) requires for consistent comparators: the elements
    of one equivalence class keep their relative order. *)
Class SortEngine := {
  Array_sort : ∀ {A : Type}, (A → A → number) → list A → list A;
  Array_sort_perm {A} (comparefn : A → A → number) l :
    Array_sort comparefn l ≡ₚ l;
  Array_sort_natural {A B} (f : A → B) (comparefn : B → B → number) l :
    Array_sort comparefn (f <$> l)
    = f <$> Array_sort (λ x y, comparefn (f x) (f y)) l;
  Array_sort_ordered {A} (comparefn : A → A → number) l :
    consistent comparefn l → ordered comparefn (Array_sort comparefn l);
  Array_sort_stable {A} (comparefn : A → A → number) l :
    consistent comparefn l →
    ∀ x, x ∈ l →
      filter (same_class comparefn x) (Array_sort comparefn l)
      = filter (same_class comparefn x) l
}.

(** *** Consequences of consistency *)

Lemma order_lt_true {A} (comparefn : A → A → number) x y :
  order_lt comparefn x y = true ↔ sort_order comparefn x y = Lt.
Proof.
  unfold order_lt, sort_order, num_sign, num_ltb.
  destruct (num_compare _ zero) as [[]|]; split; congruence.
Qed.

Lemma order_lt_false {A} (comparefn : A → A → number) x y :
  order_lt comparefn x y = false ↔ sort_order comparefn x y ≠ Lt.
Proof.
  rewrite <- order_lt_true. destruct (order_lt comparefn x y); split; congruence.
Qed.

Section consistency.
Context {A : Type} (comparefn : A → A → number) (l : list A).
Hypothesis Hcons : consistent comparefn l.

Local Abbreviation ord := (sort_order comparefn).

Lemma order_Lt_Gt a b : a ∈ l → b ∈ l → ord a b = Lt → ord b a = Gt.
Proof.
  intros Ha Hb Hab. destruct (ord b a) eqn:Hba; [| |done].
  - apply (consistent_sym _ _ Hcons) in Hba; auto. congruence.
  - pose proof (consistent_trans _ _ Hcons Lt a b a Ha Hb Ha Hab Hba) as Haa.
    rewrite (consistent_refl _ _ Hcons a Ha) in Haa. done.
Qed.

Lemma order_Gt_Lt a b : a ∈ l → b ∈ l → ord a b = Gt → ord b a = Lt.
Proof.
  intros Ha Hb Hab. destruct (ord b a) eqn:Hba; [|done|].
  - apply (consistent_sym _ _ Hcons) in Hba; auto. congruence.
  - pose proof (consistent_trans _ _ Hcons Gt a b a Ha Hb Ha Hab Hba) as Haa.
    rewrite (consistent_refl _ _ Hcons a Ha) in Haa. done.
Qed.

Lemma not_after_trans a b c :
  a ∈ l → b ∈ l → c ∈ l →
  not_after comparefn a b → not_after comparefn b c → not_after comparefn a c.
Proof.
  unfold not_after. intros Ha Hb Hc Hab Hbc Hca.
  pose proof (order_Lt_Gt c a Hc Ha Hca) as Hac.
  destruct (ord b a) eqn:Hba; [| done |]; destruct (ord c b) eqn:Hcb; try done.
  - pose proof (consistent_trans _ _ Hcons Eq c b a Hc Hb Ha Hcb Hba). congruence.
  - pose proof (consistent_trans _ _ Hcons Gt a c b Ha Hc Hb Hac Hcb) as Hab'.
    apply (consistent_sym _ _ Hcons) in Hba; auto. congruence.
  - pose proof (consistent_trans _ _ Hcons Gt b a c Hb Ha Hc Hba Hac) as Hbc'.
    apply (consistent_sym _ _ Hcons) in Hcb; auto. congruence.
  - pose proof (consistent_trans _ _ Hcons Gt c b a Hc Hb Ha Hcb Hba). congruence.
Qed.

(** [x < y] and [y] not after... [z] not before [y] give [x < z]. *)
Lemma order_Lt_not_after x y z :
  x ∈ l → y ∈ l → z ∈ l →
  ord x y = Lt → not_after comparefn y z → ord x z = Lt.
Proof.
  intros Hx Hy Hz Hxy Hyz.
  destruct (decide (ord x z = Lt)) as [|Hn]; [done|exfalso].
  assert (not_after comparefn z x) as Hzx by done.
  pose proof (not_after_trans y z x Hy Hz Hx Hyz Hzx) as Hyx.
  by apply Hyx.
Qed.

Lemma order_Lt_not_same x p e :
  x ∈ l → p ∈ l → e ∈ l →
  same_class comparefn x p → ord p e = Lt → ¬ same_class comparefn x e.
Proof.
  unfold same_class. intros Hx Hp He Hxp Hpe Hxe.
  apply (consistent_sym _ _ Hcons) in Hxp; auto.
  pose proof (consistent_trans _ _ Hcons Eq p x e Hp Hx He Hxp Hxe).
  congruence.
Qed.

Lemma order_Lt_asym a b : a ∈ l → b ∈ l → ord a b = Lt → not_after comparefn a b.
Proof.
  intros Ha Hb Hab. unfold not_after. rewrite (order_Lt_Gt a b); done.
Qed.
End consistency.

Lemma ordered_lookup {A} (comparefn : A → A → number) l i j x y :
  ordered comparefn l → i < j → l !! i = Some x → l !! j = Some y →
  not_after comparefn x y.
Proof.
  unfold ordered. intros Hs. revert i j.
  induction Hs as [|a l Hs IH Hall]; intros i j Hij Hi Hj; [done|].
  destruct j as [|j]; [lia|]. simpl in Hj.
  destruct i as [|i]; simpl in Hi.
  - simplify_eq. rewrite Forall_forall in Hall. apply Hall.
    by eapply list_elem_of_lookup_2.
  - apply (IH i j); [lia|done..].
Qed.

Lemma ordered_of_lookup {A} (R : relation A) (l : list A) :
  (∀ i j x y, i < j → l !! i = Some x → l !! j = Some y → R x y) →
  StronglySorted R l.
Proof.
  induction l as [|a l IH]; intros Hl; constructor.
  - apply IH. intros i j x y Hij Hi Hj. apply (Hl (S i) (S j)); [lia|done..].
  - apply Forall_forall. intros y [j Hj]%list_elem_of_lookup.
    apply (Hl 0 (S j)); [lia|done..].
Qed.

Lemma filter_head_split {A} (P : A → Prop) `{∀ x, Decision (P x)}
    (l : list A) a rest :
  filter P l = a :: rest →
  ∃ pre post, l = pre ++ a :: post ∧ Forall (λ x, ¬ P x) pre.
Proof.
  induction l as [|b l IH]; [done|].
  rewrite filter_cons. destruct (decide (P b)) as [Hb|Hb].
  - intros [= -> _]. by exists [], l.
  - intros (pre & post & -> & Hpre)%IH.
    exists (b :: pre), post. split; [done|]. by constructor.
Qed.

(** For a consistent comparator the two laws leave one result only:
    two rearrangements of the same elements that are both in sort
    order and keep every equivalence class in the same order are
    equal. *)
Lemma ordered_stable_unique {A} (comparefn : A → A → number) (l0 l1 l2 : list A) :
  consistent comparefn l0 → l1 ⊆ l0 →
  l1 ≡ₚ l2 → ordered comparefn l1 → ordered comparefn l2 →
  (∀ x, x ∈ l1 →
     filter (same_class comparefn x) l1 = filter (same_class comparefn x) l2) →
  l1 = l2.
Proof.
  intros Hcons. revert l2.
  induction l1 as [|a l1 IH]; intros l2 Hsub Hperm Ho1 Ho2 Hfil.
  { by apply Permutation_nil_l in Hperm. }
  assert (a ∈ l0) as Ha by (apply Hsub; by left).
  assert (same_class comparefn a a) as Haa by by apply (consistent_refl _ _ Hcons).
  pose proof (Hfil a ltac:(by left)) as Hfa.
  rewrite filter_cons_True in Hfa by done. symmetry in Hfa.
  apply filter_head_split in Hfa as (pre & post & -> & Hpre).
  destruct pre as [|b pre].
  - simpl in *. f_equal.
    apply StronglySorted_inv in Ho1 as [Ho1 _].
    apply StronglySorted_inv in Ho2 as [Ho2 _].
    apply IH; [|by eapply Permutation_cons_inv|done..|].
    + intros x Hx. apply Hsub. by right.
    + intros x Hx. specialize (Hfil x ltac:(by right)).
      rewrite !filter_cons in Hfil.
      destruct (decide (same_class comparefn x a)); by simplify_eq.
  - exfalso. apply Forall_cons in Hpre as [Hab _].
    assert (b ∈ a :: l1) as Hb by (rewrite Hperm; by left).
    apply elem_of_cons in Hb as [->|Hb]; [done|].
    assert (b ∈ l0) as Hb0 by (apply Hsub; by right).
    apply StronglySorted_inv in Ho1 as [_ Hall1].
    rewrite Forall_forall in Hall1. specialize (Hall1 b Hb).
    simpl in Ho2. apply StronglySorted_inv in Ho2 as [_ Hall2].
    rewrite Forall_forall in Hall2.
    specialize (Hall2 a ltac:(apply elem_of_app; right; by left)).
    unfold not_after, same_class in *.
    destruct (sort_order comparefn a b) eqn:Hord; try done.
    by rewrite (order_Gt_Lt _ _ Hcons a b) in Hall1.
Qed.

Lemma sublist_filter_mono {A} (P : A → Prop) `{∀ x, Decision (P x)}
    (k l : list A) :
  k `sublist_of` l → filter P k `sublist_of` filter P l.
Proof.
  induction 1 as [|x k l Hs IH|x k l Hs IH]; [constructor|..];
    rewrite ?filter_cons; destruct (decide (P x)); auto; by constructor.
Qed.

Lemma sublist_pair_lookup {A} (l : list A) j k x y :
  j < k → l !! j = Some x → l !! k = Some y → [x; y] `sublist_of` l.
Proof.
  revert j k. induction l as [|a l IH]; intros j k Hjk Hj Hk; [done|].
  destruct k as [|k]; [lia|]. destruct j as [|j]; simpl in *.
  - simplify_eq. apply sublist_skip.
    apply sublist_cons_l. apply list_elem_of_lookup_2 in Hk.
    apply list_elem_of_split in Hk as (l1 & l2 & ->).
    exists l1, l2. split; [done|]. apply sublist_nil_l.
  - apply sublist_cons. apply (IH j k); [lia|done..].
Qed.

Lemma sublist_pair_lookup_inv {A} (l : list A) x y :
  [x; y] `sublist_of` l →
  ∃ j k, j < k ∧ l !! j = Some x ∧ l !! k = Some y.
Proof.
  intros (l1 & l2 & -> & Hy)%sublist_cons_l.
  apply sublist_cons_l in Hy as (l3 & l4 & -> & _).
  exists (length l1), (length l1 + S (length l3)). split; [lia|]. split.
  - by rewrite list_lookup_middle.
  - rewrite lookup_app_r by lia.
    replace (length l1 + S (length l3) - length l1) with (S (length l3)) by lia.
    simpl. by rewrite list_lookup_middle.
Qed.

End Sort.
Export Sort.

(** ** A concrete engine: run detection and binary insertion

    Binary insertion sort started from the initial run of the array,
    the strategy of TimSort-based engines (V8) on arrays shorter than
    the minimum run length, where no merging takes place.  The working
    array is a list; positions are list indices. *)
Module ShortArraySort.

Section algorithm.
Context {A : Type} (comparefn : A → A → number).

(** The loop of CountAndMakeRun: the run ending in [previous] goes on
    with [current] while [SortCompare(current, previous)] is [< 0]
    (descending run) or [>= 0] (ascending run).  Returns the elements
    that extend the run and the remainder of the array. *)
Fixpoint extend_run (descending : bool) (previous : A) (l : list A)
  : list A * list A :=
  match l with
  | [] => ([], [])
  | current :: l' =>
      let lt := order_lt comparefn current previous in
      if (if descending then lt else negb lt) then
        let '(run, rest) := extend_run descending current l' in
        (current :: run, rest)
      else ([], l)
  end.

(** CountAndMakeRun: the first two elements decide whether the run is
    strictly descending; a descending run is reversed in place. *)
Definition CountAndMakeRun (l : list A) : list A * list A :=
  match l with
  | [] => ([], [])
  | [x] => ([x], [])
  | first :: second :: l' =>
      let descending := order_lt comparefn second first in
      let '(run, rest) := extend_run descending second l' in
      let run := first :: second :: run in
      (if descending then reverse run else run, rest)
  end.

(** The search loop of BinaryInsertionSort: [left] moves past every
    probed element the pivot is not less than. *)
Fixpoint binary_search (fuel : nat) (pivot : A) (work : list A)
    (left right : nat) : nat :=
  match fuel with
  | 0 => left
  | S fuel =>
      if left <? right then
        let mid := left + (right - left) / 2 in
        match work !! mid with
        | Some e =>
            if order_lt comparefn pivot e
            then binary_search fuel pivot work left mid
            else binary_search fuel pivot work (mid + 1) right
        | None => left
        end
      else left
  end.

(** One step of BinaryInsertionSort: the pivot is moved to position
    [left] of the sorted prefix, the elements from there on shift right. *)
Definition binary_insert (sorted : list A) (pivot : A) : list A :=
  let left := binary_search (length sorted) pivot sorted 0 (length sorted) in
  take left sorted ++ pivot :: drop left sorted.

Definition BinaryInsertionSort (run rest : list A) : list A :=
  foldl binary_insert run rest.

(** The whole sort. *)
Definition sort (l : list A) : list A :=
  let '(run, rest) := CountAndMakeRun l in
  BinaryInsertionSort run rest.

(** What holds between two neighbours of a run: the later one compares
    less than the earlier one (descending), or does not (ascending). *)
Definition run_step (descending : bool) (x y : A) : Prop :=
  if descending then sort_order comparefn y x = Lt
  else not_after comparefn x y.

End algorithm.

(** *** The engine only moves elements *)

Section permutation.
Context {A : Type} (comparefn : A → A → number).

Lemma extend_run_app descending previous (l : list A) :
  (extend_run comparefn descending previous l).1
    ++ (extend_run comparefn descending previous l).2 = l.
Proof.
  revert previous. induction l as [|current l IH]; intros previous; [done|].
  simpl. destruct (if descending then _ else _); [|done].
  specialize (IH current).
  destruct (extend_run comparefn descending current l) as [run rest].
  simpl in *. by rewrite IH.
Qed.

Lemma CountAndMakeRun_unfold first second (l : list A) :
  CountAndMakeRun comparefn (first :: second :: l)
  = let descending := order_lt comparefn second first in
    let r := extend_run comparefn descending second l in
    (if descending then reverse (first :: second :: r.1)
     else first :: second :: r.1, r.2).
Proof.
  unfold CountAndMakeRun. by destruct (extend_run comparefn _ second l).
Qed.

Lemma CountAndMakeRun_perm (l : list A) :
  (CountAndMakeRun comparefn l).1 ++ (CountAndMakeRun comparefn l).2 ≡ₚ l.
Proof.
  destruct l as [|first [|second l]]; [done..|].
  unfold CountAndMakeRun.
  pose proof (extend_run_app (order_lt comparefn second first) second l) as Happ.
  destruct (extend_run comparefn _ second l) as [run rest]. simpl in *.
  subst l.
  destruct (order_lt comparefn second first); simpl; [|done].
  by rewrite reverse_Permutation.
Qed.

Lemma binary_insert_perm (sorted : list A) pivot :
  binary_insert comparefn sorted pivot ≡ₚ pivot :: sorted.
Proof.
  unfold binary_insert.
  rewrite <- Permutation_middle. by rewrite take_drop.
Qed.

Lemma BinaryInsertionSort_perm (run rest : list A) :
  BinaryInsertionSort comparefn run rest ≡ₚ run ++ rest.
Proof.
  unfold BinaryInsertionSort. revert run.
  induction rest as [|pivot rest IH]; intros run; simpl.
  - by rewrite app_nil_r.
  - rewrite IH, binary_insert_perm. by rewrite <- Permutation_middle.
Qed.

Lemma sort_perm (l : list A) : sort comparefn l ≡ₚ l.
Proof.
  unfold sort. pose proof (CountAndMakeRun_perm l) as Hp.
  destruct (CountAndMakeRun comparefn l) as [run rest]. simpl in Hp.
  by rewrite BinaryInsertionSort_perm.
Qed.

End permutation.

(** *** The engine sees the elements through the comparator only *)

Section naturality.
Context {A B : Type} (f : A → B) (comparefn : B → B → number).

Local Abbreviation pulled := (λ x y, comparefn (f x) (f y)).

Lemma extend_run_fmap descending previous (l : list A) :
  extend_run comparefn descending (f previous) (f <$> l)
  = prod_map (fmap f) (fmap f) (extend_run pulled descending previous l).
Proof.
  revert previous. induction l as [|current l IH]; intros previous; [done|].
  simpl. change (order_lt comparefn (f current) (f previous))
    with (order_lt pulled current previous).
  destruct (if descending then _ else _); [|done].
  rewrite IH. by destruct (extend_run pulled descending current l).
Qed.

Lemma binary_search_fmap fuel pivot (work : list A) left right :
  binary_search comparefn fuel (f pivot) (f <$> work) left right
  = binary_search pulled fuel pivot work left right.
Proof.
  revert left right. induction fuel as [|fuel IH]; intros left right; [done|].
  simpl. destruct (left <? right); [|done].
  rewrite list_lookup_fmap. destruct (work !! _) as [e|]; [|done]. simpl.
  change (order_lt comparefn (f pivot) (f e)) with (order_lt pulled pivot e).
  destruct (order_lt pulled pivot e); apply IH.
Qed.

Lemma binary_insert_fmap (sorted : list A) pivot :
  binary_insert comparefn (f <$> sorted) (f pivot)
  = f <$> binary_insert pulled sorted pivot.
Proof.
  unfold binary_insert.
  rewrite length_fmap, binary_search_fmap, fmap_app, fmap_cons.
  by rewrite fmap_take, fmap_drop.
Qed.

Lemma BinaryInsertionSort_fmap (run rest : list A) :
  BinaryInsertionSort comparefn (f <$> run) (f <$> rest)
  = f <$> BinaryInsertionSort pulled run rest.
Proof.
  unfold BinaryInsertionSort. revert run.
  induction rest as [|pivot rest IH]; intros run; [done|].
  simpl. by rewrite binary_insert_fmap, IH.
Qed.

Lemma CountAndMakeRun_fmap (l : list A) :
  CountAndMakeRun comparefn (f <$> l)
  = prod_map (fmap f) (fmap f) (CountAndMakeRun pulled l).
Proof.
  destruct l as [|first [|second l]]; [done..|].
  rewrite !fmap_cons, !CountAndMakeRun_unfold. cbv zeta.
  change (order_lt comparefn (f second) (f first))
    with (order_lt pulled second first).
  rewrite extend_run_fmap.
  destruct (extend_run pulled _ second l) as [run rest]. simpl.
  destruct (order_lt pulled second first); simpl; [|done].
  by rewrite <- !fmap_cons, fmap_reverse.
Qed.

Lemma sort_fmap (l : list A) :
  sort comparefn (f <$> l) = f <$> sort pulled l.
Proof.
  unfold sort. rewrite CountAndMakeRun_fmap.
  destruct (CountAndMakeRun pulled l) as [run rest]. simpl.
  apply BinaryInsertionSort_fmap.
Qed.

End naturality.

(** *** Sort order and stability for a consistent comparator *)

Lemma StronglySorted_reverse {A} (R : relation A) (l : list A) :
  StronglySorted R l → StronglySorted (flip R) (reverse l).
Proof.
  induction 1 as [|a l Hs IH Hall]; [constructor|].
  rewrite reverse_cons. apply StronglySorted_app_2; [|done|repeat constructor].
  intros x1 x2 Hx1 Hx2. apply list_elem_of_singleton in Hx2 as ->.
  rewrite Forall_forall in Hall. apply Hall. by apply elem_of_reverse.
Qed.

Lemma StronglySorted_weaken {A} (R1 R2 : relation A) (l : list A) :
  (∀ x y, x ∈ l → y ∈ l → R1 x y → R2 x y) →
  StronglySorted R1 l → StronglySorted R2 l.
Proof.
  intros Himp Hs. induction Hs as [|a l Hs IH Hall]; [constructor|].
  constructor.
  - apply IH. intros x y Hx Hy. apply Himp; by right.
  - rewrite Forall_forall in Hall. apply Forall_forall. intros x Hx.
    apply Himp; [by left|by right|by apply Hall].
Qed.

Lemma filter_none {A} (P : A → Prop) `{∀ x, Decision (P x)} (l : list A) :
  Forall (λ x, ¬ P x) l → filter P l = [].
Proof.
  induction 1 as [|x l Hx Hl IH]; [done|].
  by rewrite filter_cons_False.
Qed.

Lemma elem_of_drop_lookup {A} (x : A) n (l : list A) :
  x ∈ drop n l → ∃ i, l !! i = Some x ∧ n ≤ i.
Proof.
  intros [i Hi]%list_elem_of_lookup. rewrite lookup_drop in Hi.
  exists (n + i). split; [done|lia].
Qed.

Section consistent_comparator.
Context {A : Type} (comparefn : A → A → number) (l0 : list A).
Hypothesis Hcons : consistent comparefn l0.

Local Abbreviation ord := (sort_order comparefn).

Lemma run_step_test (descending : bool) previous current :
  (if descending then order_lt comparefn current previous
   else negb (order_lt comparefn current previous)) = true
  ↔ run_step comparefn descending previous current.
Proof.
  destruct descending; simpl.
  - apply order_lt_true.
  - rewrite negb_true_iff. apply order_lt_false.
Qed.

Lemma run_step_trans descending x y z :
  x ∈ l0 → y ∈ l0 → z ∈ l0 →
  run_step comparefn descending x y → run_step comparefn descending y z →
  run_step comparefn descending x z.
Proof.
  intros Hx Hy Hz. destruct descending; simpl.
  - intros Hyx Hzy. by apply (consistent_trans _ _ Hcons Lt z y x).
  - by apply (not_after_trans _ _ Hcons).
Qed.

Lemma extend_run_sorted descending previous (l : list A) :
  previous ∈ l0 → l ⊆ l0 →
  StronglySorted (run_step comparefn descending)
    (previous :: (extend_run comparefn descending previous l).1).
Proof.
  revert previous. induction l as [|current l IH]; intros previous Hp Hl.
  { repeat constructor. }
  simpl. destruct (if descending then _ else _) eqn:Htest.
  2:{ repeat constructor. }
  apply run_step_test in Htest.
  assert (current ∈ l0) as Hc by (apply Hl; by left).
  assert (l ⊆ l0) as Hl' by (intros x Hx; apply Hl; by right).
  specialize (IH current Hc Hl').
  pose proof (extend_run_app comparefn descending current l) as Happ.
  destruct (extend_run comparefn descending current l) as [run rest].
  simpl in *. constructor; [done|].
  apply StronglySorted_inv in IH as [_ Hall].
  constructor; [done|].
  rewrite Forall_forall in Hall. apply Forall_forall. intros x Hx.
  apply (run_step_trans _ previous current x); auto.
  apply Hl'. rewrite <- Happ. apply elem_of_app. by left.
Qed.

Lemma CountAndMakeRun_ordered (l : list A) :
  l ⊆ l0 → ordered comparefn (CountAndMakeRun comparefn l).1.
Proof.
  intros Hl. destruct l as [|first [|second l]].
  { constructor. }
  { repeat constructor. }
  rewrite CountAndMakeRun_unfold. cbv zeta.
  assert (first ∈ l0) as Hf by (apply Hl; by left).
  assert (second :: l ⊆ l0) as Hl' by (intros x Hx; apply Hl; by right).
  pose proof (extend_run_sorted (order_lt comparefn second first)
                first (second :: l) Hf Hl') as Hs.
  pose proof (extend_run_app comparefn (order_lt comparefn second first)
                second l) as Happ.
  simpl in Hs.
  destruct (order_lt comparefn second first) eqn:Hd; simpl in Hs;
    destruct (extend_run comparefn _ second l) as [run rest]; simpl in *.
  - apply StronglySorted_reverse in Hs.
    eapply StronglySorted_weaken; [|exact Hs].
    intros x y Hx Hy Hxy. unfold flip in Hxy. simpl in Hxy.
    apply (order_Lt_asym _ _ Hcons); [..|done].
    + apply Hl. rewrite elem_of_reverse in Hx.
      rewrite <- Happ. rewrite !app_comm_cons. apply elem_of_app. by left.
    + apply Hl. rewrite elem_of_reverse in Hy.
      rewrite <- Happ. rewrite !app_comm_cons. apply elem_of_app. by left.
  - exact Hs.
Qed.

Lemma binary_search_spec fuel pivot (s : list A) lo hi :
  ordered comparefn s → pivot ∈ l0 → s ⊆ l0 →
  lo ≤ hi → hi ≤ length s → hi - lo ≤ fuel →
  (∀ i e, i < lo → s !! i = Some e → order_lt comparefn pivot e = false) →
  (∀ i e, hi ≤ i → s !! i = Some e → order_lt comparefn pivot e = true) →
  let k := binary_search comparefn fuel pivot s lo hi in
  k ≤ length s ∧
  (∀ i e, i < k → s !! i = Some e → order_lt comparefn pivot e = false) ∧
  (∀ i e, k ≤ i → s !! i = Some e → order_lt comparefn pivot e = true).
Proof.
  intros Hs Hp Hsub. revert lo hi.
  induction fuel as [|fuel IH]; intros lo hi Hle Hhi Hfuel Hlow Hup;
    cbn [binary_search].
  { assert (lo = hi) as -> by lia. auto. }
  destruct (lo <? hi) eqn:Hlt.
  2:{ apply Nat.ltb_ge in Hlt. assert (lo = hi) as -> by lia. auto. }
  apply Nat.ltb_lt in Hlt.
  assert ((hi - lo) / 2 < hi - lo) as Hhalf by (apply Nat.div_lt; lia).
  set (mid := lo + (hi - lo) / 2) in *.
  assert (lo ≤ mid ∧ mid < hi) as [Hm1 Hm2] by (unfold mid; lia).
  destruct (s !! mid) as [e|] eqn:Hmid.
  2:{ apply lookup_ge_None in Hmid. lia. }
  assert (e ∈ l0) as He by (apply Hsub; by eapply list_elem_of_lookup_2).
  destruct (order_lt comparefn pivot e) eqn:Hpe.
  - apply IH; [lia..|done|].
    intros i e' Hi Hie'.
    destruct (decide (i = mid)) as [->|Hne]; [congruence|].
    apply order_lt_true. apply order_lt_true in Hpe.
    apply (order_Lt_not_after _ _ Hcons pivot e e'); auto.
    + apply Hsub. by eapply list_elem_of_lookup_2.
    + apply (ordered_lookup comparefn s mid i); [done|lia|done..].
  - apply IH; [lia..| |done].
    intros i e' Hi Hie'.
    destruct (decide (i = mid)) as [->|Hne]; [congruence|].
    destruct (order_lt comparefn pivot e') eqn:Hpe'; [|done].
    apply order_lt_true in Hpe'. apply order_lt_false in Hpe.
    exfalso. apply Hpe.
    apply (order_Lt_not_after _ _ Hcons pivot e' e); auto.
    + apply Hsub. by eapply list_elem_of_lookup_2.
    + apply (ordered_lookup comparefn s i mid); [done|lia|done..].
Qed.

(** Where the pivot lands: everything before it is not greater, and
    everything after it is greater. *)
Lemma binary_insert_split pivot (s : list A) :
  ordered comparefn s → pivot ∈ l0 → s ⊆ l0 →
  ∃ k, binary_insert comparefn s pivot = take k s ++ pivot :: drop k s
       ∧ Forall (λ e, not_after comparefn e pivot) (take k s)
       ∧ Forall (λ e, ord pivot e = Lt) (drop k s).
Proof.
  intros Hs Hp Hsub.
  destruct (binary_search_spec (length s) pivot s 0 (length s))
    as (Hk & Hlow & Hup); auto; try lia.
  { intros i e Hi Hie. apply lookup_lt_Some in Hie. lia. }
  eexists. split; [reflexivity|]. split.
  - apply Forall_forall. intros e (i & Hie & Hi)%elem_of_take.
    apply order_lt_false. by apply (Hlow i).
  - apply Forall_forall. intros e (i & Hie & Hi)%elem_of_drop_lookup.
    apply order_lt_true. by apply (Hup i).
Qed.

Lemma binary_insert_ordered pivot (s : list A) :
  ordered comparefn s → pivot ∈ l0 → s ⊆ l0 →
  ordered comparefn (binary_insert comparefn s pivot).
Proof.
  intros Hs Hp Hsub.
  destruct (binary_insert_split pivot s) as (k & -> & Hbefore & Hafter); auto.
  unfold ordered in *. rewrite <- (take_drop k s) in Hs.
  apply StronglySorted_app in Hs as (Hcross & Hs1 & Hs2).
  rewrite Forall_forall in Hbefore, Hafter.
  apply StronglySorted_app_2; [|done|].
  - intros x1 x2 Hx1 [->|Hx2]%elem_of_cons; auto.
  - constructor; [done|]. apply Forall_forall. intros e He.
    apply (order_Lt_asym _ _ Hcons); auto.
    apply Hsub. by eapply subseteq_drop.
Qed.

Lemma binary_insert_stable x pivot (s : list A) :
  ordered comparefn s → x ∈ l0 → pivot ∈ l0 → s ⊆ l0 →
  filter (same_class comparefn x) (binary_insert comparefn s pivot)
  = filter (same_class comparefn x) (s ++ [pivot]).
Proof.
  intros Hs Hx Hp Hsub.
  destruct (binary_insert_split pivot s) as (k & -> & Hbefore & Hafter); auto.
  rewrite <- (take_drop k s) at 3.
  rewrite !filter_app, !filter_cons, filter_nil.
  destruct (decide (same_class comparefn x pivot)) as [Hsame|Hdiff].
  - rewrite (filter_none _ (drop k s)); [by rewrite app_nil_r|].
    rewrite Forall_forall in Hafter. apply Forall_forall. intros e He.
    apply (order_Lt_not_same _ _ Hcons x pivot e); auto.
    apply Hsub. by eapply subseteq_drop.
  - by rewrite app_nil_r.
Qed.

Lemma BinaryInsertionSort_ordered (run rest : list A) :
  ordered comparefn run → run ⊆ l0 → rest ⊆ l0 →
  ordered comparefn (BinaryInsertionSort comparefn run rest).
Proof.
  unfold BinaryInsertionSort. revert run.
  induction rest as [|pivot rest IH]; intros run Hs Hrun Hrest; [done|].
  simpl.
  assert (pivot ∈ l0) as Hp by (apply Hrest; by left).
  apply IH.
  - by apply binary_insert_ordered.
  - intros e He. rewrite binary_insert_perm in He.
    apply elem_of_cons in He as [->|He]; auto.
  - intros e He. apply Hrest. by right.
Qed.

Lemma BinaryInsertionSort_stable x (run rest : list A) :
  ordered comparefn run → x ∈ l0 → run ⊆ l0 → rest ⊆ l0 →
  filter (same_class comparefn x) (BinaryInsertionSort comparefn run rest)
  = filter (same_class comparefn x) (run ++ rest).
Proof.
  unfold BinaryInsertionSort. intros Hs Hx. revert run Hs.
  induction rest as [|pivot rest IH]; intros run Hs Hrun Hrest; simpl.
  { by rewrite app_nil_r. }
  assert (pivot ∈ l0) as Hp by (apply Hrest; by left).
  rewrite IH.
  - rewrite filter_app, binary_insert_stable by done.
    by rewrite <- filter_app, <- app_assoc.
  - by apply binary_insert_ordered.
  - intros e He. rewrite binary_insert_perm in He.
    apply elem_of_cons in He as [->|He]; auto.
  - intros e He. apply Hrest. by right.
Qed.

(** A strictly descending run holds at most one element of each
    equivalence class, so reversing it keeps equal elements in order. *)
Lemma descending_run_class x (run : list A) :
  StronglySorted (run_step comparefn true) run → x ∈ l0 → run ⊆ l0 →
  filter (same_class comparefn x) (reverse run)
  = filter (same_class comparefn x) run.
Proof.
  intros Hs Hx Hrun. rewrite filter_reverse.
  assert (length (filter (same_class comparefn x) run) ≤ 1) as Hlen.
  { induction Hs as [|a run Hs IH Hall]; [simpl; lia|].
    assert (a ∈ l0) as Ha by (apply Hrun; by left).
    assert (run ⊆ l0) as Hrun' by (intros e He; apply Hrun; by right).
    rewrite filter_cons.
    destruct (decide (same_class comparefn x a)) as [Hsame|Hdiff]; [|auto].
    rewrite filter_none; [simpl; lia|].
    rewrite Forall_forall in Hall. apply Forall_forall. intros e He Hxe.
    specialize (Hall e He). simpl in Hall.
    apply (order_Lt_not_same _ _ Hcons x e a); auto. }
  destruct (filter (same_class comparefn x) run) as [|a [|b k]]; try done.
  simpl in Hlen. lia.
Qed.

Lemma CountAndMakeRun_stable x (l : list A) :
  x ∈ l0 → l ⊆ l0 →
  filter (same_class comparefn x) (CountAndMakeRun comparefn l).1
  = filter (same_class comparefn x)
      (take (length (CountAndMakeRun comparefn l).1) l)
  ∧ (CountAndMakeRun comparefn l).2
    = drop (length (CountAndMakeRun comparefn l).1) l.
Proof.
  intros Hx Hl. destruct l as [|first [|second l]]; [done..|].
  rewrite CountAndMakeRun_unfold. cbv zeta.
  assert (first ∈ l0) as Hf by (apply Hl; by left).
  assert (second :: l ⊆ l0) as Hl' by (intros e He; apply Hl; by right).
  pose proof (extend_run_sorted (order_lt comparefn second first)
                first (second :: l) Hf Hl') as Hs.
  pose proof (extend_run_app comparefn (order_lt comparefn second first)
                second l) as Happ.
  simpl in Hs.
  destruct (order_lt comparefn second first) eqn:Hd; simpl in Hs;
    destruct (extend_run comparefn _ second l) as [run rest]; simpl in *;
    subst l.
  - rewrite length_reverse. simpl.
    rewrite take_app_length, drop_app_length. split; [|done].
    change (first :: second :: run) with ([first; second] ++ run).
    rewrite <- (descending_run_class x ([first; second] ++ run)); auto.
    intros e He. apply Hl. rewrite !app_comm_cons. apply elem_of_app. by left.
  - rewrite take_app_length, drop_app_length. done.
Qed.

Lemma sort_ordered (l : list A) :
  l ⊆ l0 → ordered comparefn (sort comparefn l).
Proof.
  intros Hl. unfold sort.
  pose proof (CountAndMakeRun_ordered l Hl) as Hs.
  pose proof (CountAndMakeRun_perm comparefn l) as Hp.
  destruct (CountAndMakeRun comparefn l) as [run rest]. simpl in *.
  apply BinaryInsertionSort_ordered; [done|..].
  - intros e He. apply Hl. rewrite <- Hp. apply elem_of_app. by left.
  - intros e He. apply Hl. rewrite <- Hp. apply elem_of_app. by right.
Qed.

Lemma sort_stable x (l : list A) :
  x ∈ l0 → l ⊆ l0 →
  filter (same_class comparefn x) (sort comparefn l)
  = filter (same_class comparefn x) l.
Proof.
  intros Hx Hl. unfold sort.
  pose proof (CountAndMakeRun_ordered l Hl) as Hs.
  pose proof (CountAndMakeRun_perm comparefn l) as Hp.
  destruct (CountAndMakeRun_stable x l Hx Hl) as [Hrun Hrest].
  destruct (CountAndMakeRun comparefn l) as [run rest]. simpl in *.
  rewrite BinaryInsertionSort_stable; [|done..| |].
  - rewrite filter_app, Hrun, Hrest, <- filter_app. by rewrite take_drop.
  - intros e He. apply Hl. rewrite <- Hp. apply elem_of_app. by left.
  - intros e He. apply Hl. rewrite <- Hp. apply elem_of_app. by right.
Qed.

End consistent_comparator.

(** The algorithm is a sort engine. *)
Definition engine : SortEngine.
Proof.
  refine {| Array_sort := @sort |}.
  - intros A comparefn l. apply sort_perm.
  - intros A B f comparefn l. apply sort_fmap.
  - intros A comparefn l Hcons. by apply (sort_ordered comparefn l).
  - intros A comparefn l Hcons x Hx. by apply (sort_stable comparefn l).
Defined.

End ShortArraySort.

(** ** [src/generics.ts]: [Rank] and [ranker] *)
Module Ranker.

(** [interface Rank<RankItem> { item: RankItem; rank: number }] *)
Record Rank (RankItem : Type) : Type := mkRank {
  item : RankItem;
  rank : number
}.
Arguments mkRank {RankItem} _ _.
Arguments item {RankItem} _.
Arguments rank {RankItem} _.

(** The comparator passed to [sort]: [(a, b) => a.rank - b.rank]. *)
Definition compare_rank {RankItem} (a b : Rank RankItem) : number :=
  num_sub (rank a) (rank b).

(** The decoration callback: [(item) => ({ item, rank: rank(item) })]. *)
Definition decorate {RankItem} (rank : RankItem → number) (item : RankItem)
  : Rank RankItem :=
  mkRank item (rank item).

(** [ranker]: decorate with [map], sort the decorated array, undecorate
    with [map].  Arrays are lists; [Array.prototype.map] with a pure
    callback is [fmap]. *)
Definition ranker `{SortEngine} {RankItem}
    (items : list RankItem) (rank : RankItem → number) : list RankItem :=
  let ranks := decorate rank <$> items in
  let ranks := Array_sort compare_rank ranks in
  item <$> ranks.

(** The sample data of the file. *)
Record Pokemon : Type := mkPokemon { pokemon_name : string; hp : number }.
Record Human : Type := mkHuman { human_name : string; age : number }.

Definition pokemon : list Pokemon :=
  [ mkPokemon "Bulbasaur" (Fin 20%Q); mkPokemon "Megaasaur" (Fin 5%Q) ].

Definition human : list Human :=
  [ mkHuman "Duy" (Fin 25%Q); mkHuman "TA" (Fin 50%Q) ].

(** Two items of equal rank, [{k: 1, tag: "a"}] and [{k: 1, tag: "b"}]. *)
Definition ties : list (number * string) := [ (Fin 1%Q, "a"); (Fin 1%Q, "b") ].

(** A rank function that returns NaN for one item (item 4); the items
    are numbered and their ranks are 0, 0, 0, 5, NaN, 1, 9, 1. *)
Definition rank_with_NaN (i : nat) : number :=
  match i with
  | 0 | 1 | 2 => Fin 0%Q
  | 3 => Fin 5%Q
  | 4 => NaN
  | 5 => Fin 1%Q
  | 6 => Fin 9%Q
  | _ => Fin 1%Q
  end.

(** Every item of [items] tagged with its position in [items]. *)
Definition tagged {RankItem} (items : list RankItem) : list (nat * RankItem) :=
  imap (λ i x, (i, x)) items.

(** For every element of the result, the position it had in [items]:
    the run of [ranker] on the tagged items, tags kept. *)
Definition ranker_positions `{SortEngine} {RankItem}
    (items : list RankItem) (rank : RankItem → number) : list nat :=
  fst <$> ranker (tagged items) (rank ∘ snd).

(** [x] stands somewhere before [y] in [l]. *)
Definition before {A} (x y : A) (l : list A) : Prop :=
  [x; y] `sublist_of` l.

(** [items] is sorted ascending by [rank], with the [<=] of the
    language. *)
Definition sorted_by_rank {RankItem}
    (rank : RankItem → number) (items : list RankItem) : Prop :=
  ∀ i j x y, i < j → items !! i = Some x → items !! j = Some y →
    num_leb (rank x) (rank y) = true.

(** *** [ranker] with a rank function that has effects

    The caller's function may read and write state of its own and may
    throw.  Code of that kind is a function from the state before to an
    outcome and the state after. *)
Inductive outcome (E A : Type) : Type :=
  | Value (a : A)
  | Thrown (e : E).
Arguments Value {E A} _.
Arguments Thrown {E A} _.

Definition Eff (St E A : Type) : Type := St → outcome E A * St.

Global Instance Eff_ret {St E} : MRet (Eff St E) :=
  λ A a s, (Value a, s).

Global Instance Eff_bind {St E} : MBind (Eff St E) :=
  λ A B k m s,
    match m s with
    | (Value a, s') => k a s'
    | (Thrown e, s') => (Thrown e, s')
    end.

(** [Array.prototype.map]: the callback is called on the elements in
    index order; an exception thrown by a call ends the loop and is the
    outcome of [map]. *)
Fixpoint Array_map {St E A B} (callbackfn : A → Eff St E B) (l : list A)
  : Eff St E (list B) :=
  match l with
  | [] => mret []
  | x :: l' =>
      y ← callbackfn x;
      ys ← Array_map callbackfn l';
      mret (y :: ys)
  end.

Definition ranker_eff `{SortEngine} {St E RankItem}
    (items : list RankItem) (rank : RankItem → Eff St E number)
  : Eff St E (list RankItem) :=
  ranks ← Array_map (λ item, r ← rank item; mret (mkRank item r)) items;
  let ranks := Array_sort compare_rank ranks in
  Array_map (λ rank, mret (item rank)) ranks.

(** A pure function as an effectful one. *)
Definition pure_rank {St E RankItem} (rank : RankItem → number)
  : RankItem → Eff St E number :=
  λ x, mret (rank x).

(** [rank] instrumented with a log of the arguments it is invoked on:
    every invocation appends its argument, whether it returns or
    throws. *)
Definition logged {St E RankItem} (rank : RankItem → Eff St E number)
  : RankItem → Eff (list RankItem * St) E number :=
  λ x '(log, s), let '(r, s') := rank x s in (r, (log ++ [x], s')).

(** A rank function with effects: it counts its invocations in the
    state and throws on item 2. *)
Definition rank_throwing_on_2 (x : nat) : Eff nat string number :=
  λ calls,
    if x =? 2 then (Thrown "rank failed", S calls)
    else (Value (Fin (inject_Z (Z.of_nat x))), S calls).

(** *** [ranker] on arrays in a heap

    Arrays are objects: a variable holds a reference, [map] allocates a
    new array and [sort] rewrites the array it is called on. *)
Definition loc : Type := positive.

Inductive array_obj (RankItem : Type) : Type :=
  | ItemArray (elems : list RankItem)
  | RankArray (elems : list (Rank RankItem)).
Arguments ItemArray {RankItem} _.
Arguments RankArray {RankItem} _.

(** A new object at a reference that is not in use. *)
Definition alloc {V} (h : gmap loc V) (v : V) : loc * gmap loc V :=
  let l := fresh (dom h) in (l, <[l := v]> h).

(** [ranks.sort(comparefn)] on the object itself. *)
Definition sort_in_place `{SortEngine} {RankItem}
    (o : array_obj RankItem) : array_obj RankItem :=
  match o with
  | RankArray elems => RankArray (Array_sort compare_rank elems)
  | ItemArray elems => ItemArray elems
  end.

Definition ranker_heap `{SortEngine} {RankItem}
    (items : loc) (rank : RankItem → number) (h : gmap loc (array_obj RankItem))
  : option (loc * gmap loc (array_obj RankItem)) :=
  match h !! items with
  | Some (ItemArray elems) =>
      let '(ranks, h1) := alloc h (RankArray (decorate rank <$> elems)) in
      let h2 := alter sort_in_place ranks h1 in
      match h2 !! ranks with
      | Some (RankArray sorted) => Some (alloc h2 (ItemArray (item <$> sorted)))
      | _ => None
      end
  | _ => None
  end.

(** *** The result is a rearrangement of the input *)

Lemma item_decorate {T} (rank : T → number) (items : list T) :
  item <$> (decorate rank <$> items) = items.
Proof. rewrite <- list_fmap_compose. by rewrite <- (list_fmap_id items) at 2. Qed.

Lemma ranker_perm `{SortEngine} {T} (items : list T) (rank : T → number) :
  ranker items rank ≡ₚ items.
Proof. unfold ranker. rewrite Array_sort_perm. by rewrite item_decorate. Qed.

(** C1: for every engine, every input and every rank function (whatever
    it returns, NaN included), [ranker items rank] is a permutation of
    [items], so it has the same elements with the same multiplicities,
    and it has the same length. *)
Theorem ranker_permutation `{SortEngine} {T} (items : list T) (rank : T → number) :
  ranker items rank ≡ₚ items
  ∧ length (ranker items rank) = length items.
Proof.
  split; [apply ranker_perm|]. by rewrite ranker_perm.
Qed.

(** [ranker] never looks inside an item: renaming the items commutes
    with it. *)
Lemma ranker_natural `{SortEngine} {A B} (f : A → B) (items : list A)
    (rank : B → number) :
  ranker (f <$> items) rank = f <$> ranker items (rank ∘ f).
Proof.
  unfold ranker.
  set (g := λ r : Rank A, mkRank (f (item r)) (Ranker.rank r)).
  assert (decorate rank <$> (f <$> items) = g <$> (decorate (rank ∘ f) <$> items))
    as -> by (by rewrite <- !list_fmap_compose).
  rewrite Array_sort_natural.
  change (λ x y, compare_rank (g x) (g y)) with (@compare_rank A).
  by rewrite <- !list_fmap_compose.
Qed.

(** *** The comparator is consistent when no rank is NaN *)

Lemma sort_order_compare_rank {T} (a b : Rank T) c :
  num_compare (rank a) (rank b) = Some c → sort_order compare_rank a b = c.
Proof. apply num_sign_sub. Qed.

Lemma compare_rank_consistent {T} (l : list (Rank T)) :
  (∀ a, a ∈ l → rank a ≠ NaN) → consistent compare_rank l.
Proof.
  intros Hnan. split.
  - intros a Ha. apply sort_order_compare_rank, num_compare_refl. auto.
  - intros a b Ha Hb.
    destruct (num_compare_is_Some (rank a) (rank b)) as [c Hc]; auto.
    rewrite (sort_order_compare_rank a b c Hc). intros ->.
    apply sort_order_compare_rank. by apply num_compare_antisym in Hc.
  - intros o a b c Ha Hb Hc.
    destruct (num_compare_is_Some (rank a) (rank b)) as [o1 H1]; auto.
    destruct (num_compare_is_Some (rank b) (rank c)) as [o2 H2]; auto.
    rewrite (sort_order_compare_rank a b o1 H1).
    rewrite (sort_order_compare_rank b c o2 H2). intros -> ->.
    apply sort_order_compare_rank. by eapply num_compare_trans.
Qed.

Lemma decorate_consistent {T} (rank : T → number) (items : list T) :
  (∀ x, x ∈ items → rank x ≠ NaN) →
  consistent compare_rank (decorate rank <$> items).
Proof.
  intros Hnan. apply compare_rank_consistent.
  intros a (x & -> & Hx)%list_elem_of_fmap. simpl. auto.
Qed.

Lemma sorted_decorated `{SortEngine} {T} (rank : T → number) items a :
  a ∈ Array_sort compare_rank (decorate rank <$> items) →
  ∃ x, a = decorate rank x ∧ x ∈ items.
Proof.
  rewrite Array_sort_perm. intros (x & -> & Hx)%list_elem_of_fmap. eauto.
Qed.

(** C2: when the rank function returns no NaN on the items, the result
    is sorted ascending by rank: for result positions [i < j],
    [rank(result[i]) <= rank(result[j])]. *)
Theorem ranker_sorted `{SortEngine} {T} (items : list T) (rank : T → number) :
  (∀ x, x ∈ items → rank x ≠ NaN) →
  ∀ i j x y, i < j →
    ranker items rank !! i = Some x → ranker items rank !! j = Some y →
    num_leb (rank x) (rank y) = true.
Proof.
  intros Hnan i j x y Hij Hi Hj. unfold ranker in Hi, Hj.
  apply list_lookup_fmap_Some in Hi as (a & -> & Ha).
  apply list_lookup_fmap_Some in Hj as (b & -> & Hb).
  pose proof (Array_sort_ordered compare_rank _
                (decorate_consistent rank items Hnan)) as Hord.
  pose proof (ordered_lookup _ _ i j a b Hord Hij Ha Hb) as Hab.
  apply list_elem_of_lookup_2 in Ha, Hb.
  apply sorted_decorated in Ha as (x & -> & Hx).
  apply sorted_decorated in Hb as (y & -> & Hy).
  simpl. unfold not_after in Hab.
  destruct (num_compare_is_Some (rank y) (rank x)) as [c Hc]; auto.
  apply (num_leb_compare _ _ c Hc).
  by rewrite (sort_order_compare_rank (decorate rank y) (decorate rank x) c Hc)
    in Hab.
Qed.

(** *** Stability *)

Lemma tagged_fst {T} (items : list T) :
  fst <$> tagged items = seq 0 (length items).
Proof.
  unfold tagged. trans (imap (λ (j : nat) (_ : T), j) items).
  { rewrite fmap_imap. by apply imap_ext. }
  rewrite (imap_seq_0 items (λ j, j)). apply list_fmap_id.
Qed.

Lemma tagged_snd {T} (items : list T) : snd <$> tagged items = items.
Proof.
  unfold tagged. trans (imap (const (λ x : T, x)) items).
  { rewrite fmap_imap. by apply imap_ext. }
  rewrite imap_const. apply list_fmap_id.
Qed.

Lemma tagged_lookup {T} (items : list T) i x :
  tagged items !! i = Some (i, x) ↔ items !! i = Some x.
Proof.
  unfold tagged. rewrite list_lookup_imap.
  destruct (items !! i); simpl; split; congruence.
Qed.

Lemma elem_of_tagged {T} (items : list T) i x :
  (i, x) ∈ tagged items → items !! i = Some x.
Proof.
  unfold tagged. intros (j & y & Heq & Hj)%elem_of_lookup_imap. by simplify_eq.
Qed.

(** The positions are a rearrangement of [0 .. n-1], and the result
    holds, at each place, the item that stood at that position. *)
Lemma ranker_positions_spec `{SortEngine} {T} (items : list T) (rank : T → number) :
  ranker_positions items rank ≡ₚ seq 0 (length items)
  ∧ Forall2 (λ x i, items !! i = Some x)
      (ranker items rank) (ranker_positions items rank).
Proof.
  unfold ranker_positions. split.
  - rewrite ranker_perm. by rewrite tagged_fst.
  - assert (ranker items rank = snd <$> ranker (tagged items) (rank ∘ snd))
      as -> by (by rewrite <- ranker_natural, tagged_snd).
    apply Forall2_fmap, Forall_Forall2_diag, Forall_forall.
    intros [i x] Hix. simpl.
    rewrite ranker_perm in Hix. by apply elem_of_tagged.
Qed.

(** Equal ranks keep their order, in terms of the decorated array. *)
Lemma decorated_stable `{SortEngine} {T} (items : list T) (rank : T → number) a b :
  (∀ x, x ∈ items → rank x ≠ NaN) →
  before a b items → num_eqb (rank a) (rank b) = true →
  before (decorate rank a) (decorate rank b)
    (Array_sort compare_rank (decorate rank <$> items)).
Proof.
  unfold before. intros Hnan Hab Heq.
  pose proof (decorate_consistent rank items Hnan) as Hcons.
  set (L := decorate rank <$> items) in *.
  assert ([decorate rank a; decorate rank b] `sublist_of` L) as HL
    by apply (fmap_sublist (decorate rank) _ _ Hab).
  assert (decorate rank a ∈ L) as Ha.
  { eapply elem_of_sublist; [|exact HL]. by left. }
  assert (decorate rank b ∈ L) as Hb.
  { eapply elem_of_sublist; [|exact HL]. right; by left. }
  assert (same_class compare_rank (decorate rank a) (decorate rank a)) as Haa
    by by apply (consistent_refl _ _ Hcons).
  assert (same_class compare_rank (decorate rank a) (decorate rank b)) as Hsame.
  { apply sort_order_compare_rank. simpl. by apply num_eqb_compare. }
  apply (sublist_filter_mono (same_class compare_rank (decorate rank a))) in HL.
  rewrite filter_cons_True, filter_cons_True, filter_nil in HL by done.
  rewrite <- (Array_sort_stable compare_rank L Hcons _ Ha) in HL.
  etrans; [exact HL|]. apply sublist_filter.
Qed.

(** Stability on values: an item that stands before another one of
    equal rank in the input stands before it in the result. *)
Lemma ranker_stable_values `{SortEngine} {T} (items : list T) (rank : T → number) a b :
  (∀ x, x ∈ items → rank x ≠ NaN) →
  before a b items → num_eqb (rank a) (rank b) = true →
  before a b (ranker items rank).
Proof.
  intros Hnan Hab Heq. unfold ranker.
  apply (fmap_sublist item _ _ (decorated_stable items rank a b Hnan Hab Heq)).
Qed.

(** C3 (amended): when the rank function returns no NaN on the items,
    [ranker] is stable.  Items are told apart by their input position:
    [ranker_positions] lists the positions as the items stand in the
    result, and if the items at input positions [j < k] have equal rank
    then [j] stands before [k] there.  On values: if [a] stands before
    [b] in the input and their ranks are equal, [a] stands before [b]
    in the result. *)
Theorem ranker_stable `{SortEngine} {T} (items : list T) (rank : T → number) :
  (∀ x, x ∈ items → rank x ≠ NaN) →
  ranker_positions items rank ≡ₚ seq 0 (length items)
  ∧ Forall2 (λ x i, items !! i = Some x)
      (ranker items rank) (ranker_positions items rank)
  ∧ (∀ j k a b, j < k → items !! j = Some a → items !! k = Some b →
       num_eqb (rank a) (rank b) = true →
       before j k (ranker_positions items rank))
  ∧ (∀ a b, before a b items → num_eqb (rank a) (rank b) = true →
       before a b (ranker items rank)).
Proof.
  intros Hnan.
  destruct (ranker_positions_spec items rank) as [Hperm Hall].
  do 2 (split; [done|]). split.
  - intros j k a b Hjk Hj Hk Heq. unfold ranker_positions.
    apply (fmap_sublist fst [(j, a); (k, b)]).
    apply (ranker_stable_values (tagged items) (rank ∘ snd) (j, a) (k, b)).
    + intros [i x] Hix%elem_of_tagged. simpl. apply Hnan.
      by eapply list_elem_of_lookup_2.
    + apply (sublist_pair_lookup _ j k); [done|by apply tagged_lookup..].
    + done.
  - intros a b. by apply ranker_stable_values.
Qed.

(** With a NaN among the ranks the comparator is not consistent and
    the engine of [ShortArraySort] moves item 7 in front of item 5,
    although both have rank 1 and item 5 comes first in the input.

    The run: every comparison that involves item 4 yields NaN, which
    [SortCompare] reads as 0.  Run detection takes items 0 to 6 as one
    ascending run (the neighbours compare 0, 0, 5, 0, 0, 8, none
    negative) and stops at item 7 (1 - 9 is negative).  Binary insertion
    of item 7 into places 0 to 6 probes place 3 (rank 5, 1 - 5 is
    negative: go left), place 1 and place 2 (rank 0: go right), and
    puts item 7 at place 3, in front of items 3, 4, 5 and 6. *)
Lemma ranker_unstable_with_NaN :
  let items := [0; 1; 2; 3; 4; 5; 6; 7] in
  let result := @ranker ShortArraySort.engine nat items rank_with_NaN in
  before 5 7 items
  ∧ num_eqb (rank_with_NaN 5) (rank_with_NaN 7) = true
  ∧ result = [0; 1; 2; 7; 3; 4; 5; 6]
  ∧ ¬ before 5 7 result.
Proof.
  cbv zeta.
  assert (@ranker ShortArraySort.engine nat [0; 1; 2; 3; 4; 5; 6; 7]
            rank_with_NaN = [0; 1; 2; 7; 3; 4; 5; 6]) as -> by by vm_compute.
  split; [|split; [by vm_compute|split; [done|]]].
  - apply (sublist_pair_lookup _ 5 7); [lia|done..].
  - intros (j & k & Hjk & Hj & Hk)%sublist_pair_lookup_inv.
    assert (j = 6) as ->.
    { do 8 (destruct j as [|j]; [simpl in Hj; congruence|]). done. }
    assert (k = 3) as ->.
    { do 8 (destruct k as [|k]; [simpl in Hk; congruence|]). done. }
    lia.
Qed.

(** *** Input that is sorted already *)

Lemma num_leb_not_NaN (a b : number) :
  num_leb a b = true → a ≠ NaN ∧ b ≠ NaN.
Proof.
  unfold num_leb. destruct (num_compare a b) as [c|] eqn:Hc; [|done].
  intros _. by eapply num_compare_not_NaN.
Qed.

Lemma sorted_by_rank_not_NaN {T} (rank : T → number) (items : list T) :
  1 < length items → sorted_by_rank rank items →
  ∀ x, x ∈ items → rank x ≠ NaN.
Proof.
  intros Hlen Hs x [i Hi]%list_elem_of_lookup.
  destruct i as [|i].
  - destruct (lookup_lt_is_Some_2 items 1 Hlen) as [y Hy].
    by destruct (num_leb_not_NaN _ _ (Hs 0 1 x y ltac:(lia) Hi Hy)).
  - destruct (lookup_lt_is_Some_2 items 0 ltac:(lia)) as [y Hy].
    by destruct (num_leb_not_NaN _ _ (Hs 0 (S i) y x ltac:(lia) Hy Hi)).
Qed.

Lemma sorted_by_rank_ordered {T} (rank : T → number) (items : list T) :
  sorted_by_rank rank items → ordered compare_rank (decorate rank <$> items).
Proof.
  intros Hs. apply ordered_of_lookup. intros i j a b Hij Hi Hj.
  apply list_lookup_fmap_Some in Hi as (x & -> & Hi).
  apply list_lookup_fmap_Some in Hj as (y & -> & Hj).
  specialize (Hs i j x y Hij Hi Hj). unfold num_leb in Hs.
  destruct (num_compare (rank x) (rank y)) as [c|] eqn:Hc; [|done].
  apply num_compare_antisym in Hc. unfold not_after.
  rewrite (sort_order_compare_rank (decorate rank y) (decorate rank x) _ Hc).
  by destruct c.
Qed.

(** C7: when the input is sorted ascending by rank already, the result
    is the input, element for element; in particular the result for
    the empty input is empty. *)
Theorem ranker_sorted_input `{SortEngine} {T} (items : list T) (rank : T → number) :
  (sorted_by_rank rank items → ranker items rank = items)
  ∧ ranker [] rank = [].
Proof.
  assert (∀ l : list T, length l ≤ 1 → ranker l rank = l) as Hshort.
  { intros l Hl. pose proof (ranker_perm l rank) as Hp.
    destruct l as [|x [|y l]]; simpl in Hl; [| |lia].
    - by apply Permutation_nil_r in Hp.
    - by apply Permutation_singleton_r in Hp. }
  split; [|apply Hshort; simpl; lia].
  intros Hs. destruct (decide (length items ≤ 1)) as [|Hlen]; [by apply Hshort|].
  pose proof (sorted_by_rank_not_NaN rank items ltac:(lia) Hs) as Hnan.
  pose proof (decorate_consistent rank items Hnan) as Hcons.
  unfold ranker. rewrite <- (item_decorate rank items) at 2. f_equal.
  apply (ordered_stable_unique compare_rank (decorate rank <$> items)); auto.
  - intros a Ha. by rewrite Array_sort_perm in Ha.
  - apply Array_sort_perm.
  - by apply Array_sort_ordered.
  - by apply sorted_by_rank_ordered.
  - intros a Ha. rewrite Array_sort_perm in Ha. by apply Array_sort_stable.
Qed.

(** *** Invocations of the rank function *)

Lemma Eff_bind_unfold {St E A B} (k : A → Eff St E B) (m : Eff St E A) s :
  (m ≫= k) s
  = match m s with
    | (Value a, s') => k a s'
    | (Thrown e, s') => (Thrown e, s')
    end.
Proof. reflexivity. Qed.

Lemma Array_map_pure {St E A B} (f : A → B) (l : list A) (s : St) :
  Array_map (E:=E) (λ x, mret (f x)) l s = (Value (f <$> l), s).
Proof.
  induction l as [|x l IH]; [done|].
  cbn [Array_map]. rewrite Eff_bind_unfold. cbn [mret Eff_ret].
  rewrite Eff_bind_unfold, IH. done.
Qed.

(** The decoration pass calls [rank] on the items in order, and on
    nothing else; what it returns is the items paired with the values
    [rank] returned. *)
Lemma Array_map_decorate {St E T} (rank : T → Eff St E number) (items : list T) s :
  Array_map (λ item, r ← rank item; mret (mkRank item r)) items s
  = match Array_map rank items s with
    | (Value rs, s') => (Value (zip_with mkRank items rs), s')
    | (Thrown e, s') => (Thrown e, s')
    end.
Proof.
  revert s. induction items as [|x items IH]; intros s; [done|].
  cbn [Array_map]. rewrite !Eff_bind_unfold.
  destruct (rank x s) as [[v|e] s1]; [|done].
  cbn [mret Eff_ret]. rewrite !Eff_bind_unfold, IH.
  by destruct (Array_map rank items s1) as [[rs|e] s2].
Qed.

Lemma ranker_eff_unfold `{SortEngine} {St E T}
    (items : list T) (rank : T → Eff St E number) s :
  ranker_eff items rank s
  = match Array_map rank items s with
    | (Value rs, s') =>
        (Value (item <$> Array_sort compare_rank (zip_with mkRank items rs)), s')
    | (Thrown e, s') => (Thrown e, s')
    end.
Proof.
  unfold ranker_eff. rewrite Eff_bind_unfold, Array_map_decorate.
  destruct (Array_map rank items s) as [[rs|e] s']; [|done].
  apply Array_map_pure.
Qed.

Lemma zip_with_decorate {T} (rank : T → number) (items : list T) :
  zip_with mkRank items (rank <$> items) = decorate rank <$> items.
Proof.
  induction items as [|x items IH]; [done|].
  rewrite !fmap_cons. cbn [zip_with]. by rewrite IH.
Qed.

(** With a pure rank function the effectful [ranker] is [ranker]. *)
Lemma ranker_eff_pure `{SortEngine} {St E T} (items : list T) (rank : T → number)
    (s : St) :
  ranker_eff (E:=E) items (pure_rank rank) s = (Value (ranker items rank), s).
Proof.
  rewrite ranker_eff_unfold. unfold pure_rank.
  rewrite (Array_map_pure (E:=E) rank items s).
  unfold ranker. by rewrite zip_with_decorate.
Qed.

Lemma Array_map_logged {St E T} (rank : T → Eff St E number) (items : list T)
    log s :
  match Array_map (logged rank) items (log, s) with
  | (Value _, (log', _)) => log' = log ++ items
  | (Thrown _, (log', _)) =>
      ∃ k, k < length items ∧ log' = log ++ take (S k) items
  end.
Proof.
  revert log s. induction items as [|x items IH]; intros log s.
  { simpl. by rewrite app_nil_r. }
  cbn [Array_map]. rewrite Eff_bind_unfold.
  unfold logged at 1. destruct (rank x s) as [[v|e] s1].
  - rewrite Eff_bind_unfold. specialize (IH (log ++ [x]) s1).
    destruct (Array_map (logged rank) items (log ++ [x], s1))
      as [[rs|e] [log' s2]].
    + cbn. by rewrite IH, <- app_assoc.
    + destruct IH as (k & Hk & ->). exists (S k). split; [simpl; lia|].
      by rewrite <- app_assoc.
  - exists 0. split; [simpl; lia|]. simpl. by rewrite ?take_0.
Qed.

(** C4: [rank], instrumented with a log of its invocations, is invoked
    on each item once, in input order, and on nothing else: after a
    run of [ranker] that returns, the log has grown by exactly [items]
    (so by [n] invocations); after a run that [rank] ended by throwing,
    it has grown by the items up to the one that threw.  The sort adds
    no invocation. *)
Theorem ranker_calls_rank_once `{SortEngine} {St E T}
    (items : list T) (rank : T → Eff St E number) (log : list T) (s : St) :
  match ranker_eff items (logged rank) (log, s) with
  | (Value _, (log', _)) => log' = log ++ items
  | (Thrown _, (log', _)) =>
      ∃ k, k < length items ∧ log' = log ++ take (S k) items
  end.
Proof.
  rewrite ranker_eff_unfold.
  pose proof (Array_map_logged rank items log s) as Hlog.
  by destruct (Array_map (logged rank) items (log, s)) as [[rs|e] [log' s']].
Qed.

(** *** Exceptions of the rank function *)

Lemma Array_map_app {St E A B} (f : A → Eff St E B) (l1 l2 : list A) s :
  Array_map f (l1 ++ l2) s
  = match Array_map f l1 s with
    | (Value ys, s1) =>
        match Array_map f l2 s1 with
        | (Value zs, s2) => (Value (ys ++ zs), s2)
        | (Thrown e, s2) => (Thrown e, s2)
        end
    | (Thrown e, s1) => (Thrown e, s1)
    end.
Proof.
  revert s. induction l1 as [|x l1 IH]; intros s.
  { simpl. by destruct (Array_map f l2 s) as [[zs|e] s2]. }
  cbn [app Array_map]. rewrite !Eff_bind_unfold.
  destruct (f x s) as [[y|e] s1]; [|done].
  rewrite !Eff_bind_unfold, IH.
  destruct (Array_map f l1 s1) as [[ys|e] s2]; [|done].
  rewrite ?Eff_bind_unfold. cbn [mret Eff_ret].
  by destruct (Array_map f l2 s2) as [[zs|e] s3].
Qed.

Lemma Array_map_total {St E A B} (f : A → Eff St E B) (l : list A) s :
  (∀ x s, x ∈ l → ∃ v s', f x s = (Value v, s')) →
  ∃ ys s', Array_map f l s = (Value ys, s') ∧ length ys = length l.
Proof.
  revert s. induction l as [|x l IH]; intros s Htot.
  { by exists [], s. }
  destruct (Htot x s ltac:(by left)) as (v & s1 & Hx).
  destruct (IH s1) as (ys & s2 & Hl & Hlen).
  { intros y s' Hy. apply Htot. by right. }
  exists (v :: ys), s2. cbn [Array_map].
  rewrite !Eff_bind_unfold, Hx, Eff_bind_unfold, Hl. simpl. by rewrite Hlen.
Qed.

(** C5: if [rank] returns on the items before [x] and throws [e] on
    [x], then [ranker] ends with the same exception [e], in the state
    the throw left, and returns no array; and if [rank] returns on
    every item it is given, [ranker] returns an array. *)
Theorem ranker_propagates_exception `{SortEngine} {St E T}
    (items : list T) (rank : T → Eff St E number) (s : St) :
  (∀ pre x post rs s1 e s2,
     items = pre ++ x :: post →
     Array_map rank pre s = (Value rs, s1) →
     rank x s1 = (Thrown e, s2) →
     ranker_eff items rank s = (Thrown e, s2))
  ∧ ((∀ x s', x ∈ items → ∃ v s'', rank x s' = (Value v, s'')) →
     ∃ result s', ranker_eff items rank s = (Value result, s')
                  ∧ length result = length items).
Proof.
  split.
  - intros pre x post rs s1 e s2 -> Hpre Hx.
    rewrite ranker_eff_unfold, Array_map_app, Hpre.
    cbn [Array_map]. by rewrite Eff_bind_unfold, Hx.
  - intros Htot. destruct (Array_map_total rank items s Htot) as (rs & s' & Hrs & Hlen).
    eexists _, s'. rewrite ranker_eff_unfold, Hrs. split; [done|].
    rewrite length_fmap, Array_sort_perm, length_zip_with. lia.
Qed.

(** *** The heap *)

Lemma alloc_fresh {V} (h : gmap loc V) (v : V) :
  h !! (alloc h v).1 = None.
Proof. apply not_elem_of_dom, is_fresh. Qed.

(** C6: a run of [ranker] on the array at [items] returns a reference
    [out] that was not in use before the call (so it is not [items],
    nor any other array the caller holds), the array there is the
    result, and every object of the heap before the call, the input
    array among them, is unchanged. *)
Theorem ranker_heap_frame `{SortEngine} {T}
    (items : loc) (rank : T → number) (h : gmap loc (array_obj T)) elems :
  h !! items = Some (ItemArray elems) →
  ∃ out h',
    ranker_heap items rank h = Some (out, h')
    ∧ h !! out = None
    ∧ out ≠ items
    ∧ h' !! out = Some (ItemArray (ranker elems rank))
    ∧ h' !! items = Some (ItemArray elems)
    ∧ ∀ l o, h !! l = Some o → h' !! l = Some o.
Proof.
  intros Hitems. unfold ranker_heap. rewrite Hitems.
  set (L := decorate rank <$> elems).
  pose proof (alloc_fresh h (RankArray L)) as Hranks.
  unfold alloc in *. simpl in Hranks.
  set (ranks := fresh (dom h)) in *.
  set (h1 := <[ranks := RankArray L]> h).
  set (h2 := alter sort_in_place ranks h1).
  assert (h2 !! ranks = Some (RankArray (Array_sort compare_rank L))) as Hh2.
  { unfold h2, h1. by rewrite lookup_alter_eq, lookup_insert_eq. }
  rewrite Hh2.
  pose proof (alloc_fresh h2 (ItemArray (item <$> Array_sort compare_rank L)))
    as Hout.
  unfold alloc in Hout. simpl in Hout.
  set (out := fresh (dom h2)) in *.
  assert (∀ l o, h !! l = Some o → h2 !! l = Some o) as Hframe.
  { intros l o Hl. assert (l ≠ ranks) by congruence.
    unfold h2, h1. by rewrite lookup_alter_ne, lookup_insert_ne. }
  assert (∀ l o, h !! l = Some o → l ≠ out) as Hne.
  { intros l o Hl ->. apply Hframe in Hl. congruence. }
  eexists out, _. split; [reflexivity|]. repeat split.
  - destruct (h !! out) as [o|] eqn:Ho; [|done]. by destruct (Hne out o).
  - intros ->. by eapply Hne.
  - by rewrite lookup_insert_eq.
  - rewrite lookup_insert_ne by (symmetry; by eapply Hne). by apply Hframe.
  - intros l o Hl.
    rewrite lookup_insert_ne by (symmetry; by eapply Hne). by apply Hframe.
Qed.

(** *** The theorems at the sample data of the file *)

Lemma pokemon_no_NaN : ∀ x, x ∈ pokemon → hp x ≠ NaN.
Proof.
  intros x Hx. unfold pokemon in Hx.
  repeat (apply elem_of_cons in Hx as [->|Hx]; [done|]).
  by apply elem_of_nil in Hx.
Defined.

Lemma ties_no_NaN : ∀ x : number * string, x ∈ ties → fst x ≠ NaN.
Proof.
  intros x Hx. unfold ties in Hx.
  repeat (apply elem_of_cons in Hx as [->|Hx]; [done|]).
  by apply elem_of_nil in Hx.
Defined.

Lemma human_sorted : sorted_by_rank age human.
Proof.
  intros i j x y Hij Hi Hj. unfold human in *.
  destruct i as [|[|i]]; destruct j as [|[|j]]; simplify_eq/=; done || lia.
Defined.

(** [ranker(pokemon, ({ hp }) => hp)] puts Megaasaur (5) before
    Bulbasaur (20). *)
Lemma ranker_sorted_witness :
  @ranker ShortArraySort.engine _ pokemon hp
  = [ mkPokemon "Megaasaur" (Fin 5%Q); mkPokemon "Bulbasaur" (Fin 20%Q) ]
  ∧ num_leb (hp (mkPokemon "Megaasaur" (Fin 5%Q)))
      (hp (mkPokemon "Bulbasaur" (Fin 20%Q))) = true.
Proof.
  split; [by vm_compute|].
  apply (@ranker_sorted ShortArraySort.engine _ pokemon hp pokemon_no_NaN 0 1);
    [lia|by vm_compute..].
Defined.

(** The two items of equal rank stay in input order. *)
Lemma ranker_stable_witness :
  @ranker ShortArraySort.engine _ ties fst = ties
  ∧ before 0 1 (@ranker_positions ShortArraySort.engine _ ties fst).
Proof.
  split; [by vm_compute|].
  apply (proj1 (proj2 (proj2 (@ranker_stable ShortArraySort.engine _ ties fst
                                ties_no_NaN)))
           0 1 (Fin 1%Q, "a") (Fin 1%Q, "b"));
    [lia|done..].
Defined.

(** [ranker(human, ({ age }) => age)] returns the humans as given. *)
Lemma ranker_sorted_input_witness :
  @ranker ShortArraySort.engine _ human age = human.
Proof.
  apply (proj1 (@ranker_sorted_input ShortArraySort.engine _ human age)).
  exact human_sorted.
Defined.

(** On [[1; 2; 3]] the exception of item 2 comes out of [ranker], after
    two invocations; on [[1; 3]] an array comes out. *)
Lemma ranker_propagates_exception_witness :
  @ranker_eff ShortArraySort.engine _ _ _ [1; 2; 3] rank_throwing_on_2 0
  = (Thrown "rank failed", 2)
  ∧ ∃ result s',
      @ranker_eff ShortArraySort.engine _ _ _ [1; 3] rank_throwing_on_2 0
      = (Value result, s') ∧ length result = 2.
Proof.
  split.
  - apply (proj1 (@ranker_propagates_exception ShortArraySort.engine _ _ _
                    [1; 2; 3] rank_throwing_on_2 0)
             [1] 2 [3] [Fin 1%Q] 1 "rank failed" 2); reflexivity.
  - apply (proj2 (@ranker_propagates_exception ShortArraySort.engine _ _ _
                    [1; 3] rank_throwing_on_2 0)).
    intros x s' Hx.
    repeat (apply elem_of_cons in Hx as [->|Hx]; [by eexists _, _|]).
    by apply elem_of_nil in Hx.
Defined.

(** A heap that holds [pokemon] at reference 1. *)
Lemma ranker_heap_frame_witness :
  ∃ out h',
    @ranker_heap ShortArraySort.engine _ 1%positive hp
      {[ 1%positive := ItemArray pokemon ]} = Some (out, h')
    ∧ ({[ 1%positive := ItemArray pokemon ]} : gmap loc _) !! out = None
    ∧ out ≠ 1%positive
    ∧ h' !! out
      = Some (ItemArray (@ranker ShortArraySort.engine _ pokemon hp))
    ∧ h' !! 1%positive = Some (ItemArray pokemon)
    ∧ ∀ l o, ({[ 1%positive := ItemArray pokemon ]} : gmap loc _) !! l = Some o →
             h' !! l = Some o.
Proof.
  apply (@ranker_heap_frame ShortArraySort.engine _ 1%positive hp
           {[ 1%positive := ItemArray pokemon ]} pokemon).
  apply lookup_singleton_eq.
Defined.

(** [[3, 1, 2]] ranked by the items themselves. *)
Example ranker_identity_example :
  @ranker ShortArraySort.engine _ [3; 1; 2]%Z (λ z, Fin (inject_Z z))
  = [1; 2; 3]%Z.
Proof. by vm_compute. Qed.

(** The rank function is invoked three times on three items. *)
Example ranker_calls_rank_once_example :
  @ranker_eff ShortArraySort.engine _ string _ [3; 1; 2]
    (logged (pure_rank (λ x, Fin (inject_Z (Z.of_nat x))))) ([], tt)
  = (Value [1; 2; 3], ([3; 1; 2], tt)).
Proof. by vm_compute. Qed.

End Ranker.
Export Ranker.

(** ** [src/generics.ts]: [simpleState]

    Each call creates a variable [val] that the two returned closures
    share.  The variables live in a store; a call takes a location that
    is not in use, and the closures read and write that location. *)
Module SimpleState.

Section cells.
Context {T : Type}.

(** [[() => val, (v) => { val = v }]]: the getter reads the store, the
    setter returns the store after the assignment. *)
Definition simpleState (initial : T) (σ : gmap positive T)
  : ((gmap positive T → option T) * (T → gmap positive T → gmap positive T))
    * gmap positive T :=
  let val := fresh (dom σ) in
  ((λ σ', σ' !! val, λ v σ', <[val := v]> σ'), <[val := initial]> σ).

(** The two calls of the file on the first cell:
    [st1getter(); st1setter(v); st1getter()]. *)
Definition get_set_get (initial v : T) (σ : gmap positive T)
  : option T * option T :=
  let '((st1getter, st1setter), σ1) := simpleState initial σ in
  let first := st1getter σ1 in
  let σ2 := st1setter v σ1 in
  (first, st1getter σ2).

(** C9: a cell made by [simpleState initial] reads [initial] before any
    write; after a write of [v] it reads [v], whatever was written
    before; and two cells made by two calls, the second made while the
    first exists, do not see each other's writes. *)
Theorem simpleState_cell (initial : T) (σ : gmap positive T) :
  let '((getter, setter), σ1) := simpleState initial σ in
  getter σ1 = Some initial
  ∧ (∀ v σ', getter (setter v σ') = Some v)
  ∧ (∀ other σ',
       is_Some (getter σ') →
       let '((getter2, setter2), σ2) := simpleState other σ' in
       getter2 σ2 = Some other
       ∧ getter σ2 = getter σ'
       ∧ ∀ v σ'',
           getter2 (setter v σ'') = getter2 σ''
           ∧ getter (setter2 v σ'') = getter σ'').
Proof.
  unfold simpleState. set (val := fresh (dom σ)).
  split; [by rewrite lookup_insert_eq|].
  split; [intros; by rewrite lookup_insert_eq|].
  intros other σ' Hlive. set (val2 := fresh (dom σ')).
  assert (val2 ≠ val) as Hne.
  { intros Heq. apply elem_of_dom in Hlive. rewrite <- Heq in Hlive.
    by apply (is_fresh (dom σ')). }
  split; [by rewrite lookup_insert_eq|].
  split; [by rewrite lookup_insert_ne|].
  intros v σ''. by rewrite !lookup_insert_ne.
Qed.

End cells.

(** [simpleState([1, 2, 3])], then [st1setter([2, 3])]: the reads are
    [[1, 2, 3]] and [[2, 3]]. *)
Lemma simpleState_cell_witness :
  get_set_get [1; 2; 3] [2; 3] ∅ = (Some [1; 2; 3], Some [2; 3]).
Proof.
  pose proof (simpleState_cell [1; 2; 3] ∅) as Hcell.
  unfold get_set_get. destruct (simpleState [1; 2; 3] ∅) as [[getter setter] σ1].
  destruct Hcell as (Hinit & Hset & _). by rewrite Hinit, Hset.
Defined.

End SimpleState.

(** ** [src/abstract.ts]: [pluck] *)
Module Pluck.

(** The values the sample records hold. *)
Inductive value : Type :=
  | VUndefined
  | VNumber (n : number)
  | VString (s : string).

(** An object is a finite map from property names to values;
    [item[key]] is the value of the property, [undefined] when the
    object has no such property. *)
Definition get_property (item : gmap string value) (key : string) : value :=
  default VUndefined (item !! key).

(** [pluck]: [items.map((item) => item[key])]. *)
Definition pluck (items : list (gmap string value)) (key : string) : list value :=
  (λ item, get_property item key) <$> items.

(** [const dogs: Dog1[]], where [title] is optional. *)
Definition dogs : list (gmap string value) :=
  [ {[ "name" := VString "Mimi"; "age" := VNumber (Fin 12%Q);
       "title" := VString "sdad" ]};
    {[ "name" := VString "LG"; "age" := VNumber (Fin 13%Q) ]} ].

Definition cat1 : list (gmap string value) :=
  [ {[ "color" := VString "yellow" ]} ].

(** C8: [pluck items key] has the length of [items], and its [i]-th
    element is the [key] property of the [i]-th item; when the item has
    the property, that is the value stored under [key]. *)
Theorem pluck_fields (items : list (gmap string value)) (key : string) :
  length (pluck items key) = length items
  ∧ (∀ i, pluck items key !! i = (λ item, get_property item key) <$> items !! i)
  ∧ (∀ i item v, items !! i = Some item → item !! key = Some v →
       pluck items key !! i = Some v).
Proof.
  unfold pluck. split; [apply length_fmap|]. split.
  - intros i. apply list_lookup_fmap.
  - intros i item v Hi Hv. rewrite list_lookup_fmap, Hi. simpl.
    unfold get_property. by rewrite Hv.
Qed.

(** C10: for an item without the property the entry is [undefined], at
    the position of the item; no item is skipped, so the result has one
    entry for each item. *)
Theorem pluck_optional_field (items : list (gmap string value)) (key : string) :
  length (pluck items key) = length items
  ∧ (∀ i item, items !! i = Some item → item !! key = None →
       pluck items key !! i = Some VUndefined)
  ∧ (∀ i, is_Some (items !! i) ↔ is_Some (pluck items key !! i)).
Proof.
  unfold pluck. split; [apply length_fmap|]. split.
  - intros i item Hi Hv. rewrite list_lookup_fmap, Hi. simpl.
    unfold get_property. by rewrite Hv.
  - intros i. rewrite list_lookup_fmap. by rewrite fmap_is_Some.
Qed.

(** [pluck(dogs, 'name')] is [['Mimi', 'LG']]. *)
Lemma pluck_fields_witness :
  pluck dogs "name" = [VString "Mimi"; VString "LG"]
  ∧ pluck dogs "name" !! 1 = Some (VString "LG").
Proof.
  split; [by vm_compute|].
  apply (proj2 (proj2 (pluck_fields dogs "name")) 1
           {[ "name" := VString "LG"; "age" := VNumber (Fin 13%Q) ]});
    by vm_compute.
Defined.

(** [pluck(dogs, 'title')] is [['sdad', undefined]]: LG has no title. *)
Lemma pluck_optional_field_witness :
  pluck dogs "title" = [VString "sdad"; VUndefined]
  ∧ pluck dogs "title" !! 1 = Some VUndefined.
Proof.
  split; [by vm_compute|].
  apply (proj1 (proj2 (pluck_optional_field dogs "title")) 1
           {[ "name" := VString "LG"; "age" := VNumber (Fin 13%Q) ]});
    by vm_compute.
Defined.

End Pluck.

(** ** A second engine: straight insertion

    Every element is put in front of the first element of the sorted
    part that compares greater, the plain insertion sort some engines
    run on short arrays.  It is here to have two engines at hand that
    differ as algorithms. *)
Module InsertionSort.

Section algorithm.
Context {A : Type} (comparefn : A → A → number).

(** The test [SortCompare(x, y) > 0]. *)
Definition order_gt (x y : A) : bool :=
  num_ltb zero (SortCompare comparefn x y).

Fixpoint insert (x : A) (sorted : list A) : list A :=
  match sorted with
  | [] => [x]
  | e :: sorted' =>
      if order_gt e x then x :: sorted else e :: insert x sorted'
  end.

Definition sort (l : list A) : list A :=
  foldl (λ sorted x, insert x sorted) [] l.

End algorithm.

Lemma order_gt_true {A} (comparefn : A → A → number) x y :
  order_gt comparefn x y = true ↔ sort_order comparefn x y = Gt.
Proof.
  unfold order_gt, sort_order, num_sign, num_ltb.
  destruct (num_compare zero (SortCompare comparefn x y)) as [c|] eqn:Hc.
  - apply num_compare_antisym in Hc. rewrite Hc.
    destruct c; simpl; split; congruence.
  - destruct (num_compare (SortCompare comparefn x y) zero) as [c|] eqn:Hc';
      [|split; congruence].
    apply num_compare_antisym in Hc'. congruence.
Qed.

Section laws.
Context {A : Type} (comparefn : A → A → number).

Lemma insert_perm x (sorted : list A) :
  insert comparefn x sorted ≡ₚ x :: sorted.
Proof.
  induction sorted as [|e sorted IH]; [done|]. simpl.
  destruct (order_gt comparefn e x); [done|].
  rewrite IH. apply perm_swap.
Qed.

Lemma foldl_insert_perm (acc l : list A) :
  foldl (λ sorted x, insert comparefn x sorted) acc l ≡ₚ acc ++ l.
Proof.
  revert acc. induction l as [|x l IH]; intros acc; simpl.
  - by rewrite app_nil_r.
  - rewrite IH, insert_perm. by rewrite <- Permutation_middle.
Qed.

Lemma insertion_sort_perm (l : list A) : sort comparefn l ≡ₚ l.
Proof. unfold sort. by rewrite foldl_insert_perm. Qed.

Context (l0 : list A).
Hypothesis Hcons : consistent comparefn l0.

Lemma insert_ordered x (sorted : list A) :
  x ∈ l0 → sorted ⊆ l0 → ordered comparefn sorted →
  ordered comparefn (insert comparefn x sorted).
Proof.
  unfold ordered. intros Hx.
  induction sorted as [|e sorted IH]; intros Hsub Hs.
  { repeat constructor. }
  assert (e ∈ l0) as He by (apply Hsub; by left).
  assert (sorted ⊆ l0) as Hsub' by (intros y Hy; apply Hsub; by right).
  apply StronglySorted_inv in Hs as [Hs Hall]. simpl.
  destruct (order_gt comparefn e x) eqn:Hgt.
  - apply order_gt_true in Hgt.
    assert (not_after comparefn x e) as Hxe by (unfold not_after; congruence).
    constructor; [by constructor|]. constructor; [done|].
    rewrite Forall_forall in Hall. apply Forall_forall. intros y Hy.
    apply (not_after_trans _ _ Hcons x e y); auto.
  - constructor; [by apply IH|].
    apply Forall_forall. intros y Hy. rewrite insert_perm in Hy.
    apply elem_of_cons in Hy as [->|Hy].
    + unfold not_after. intros Hlt.
      apply (order_Lt_Gt _ _ Hcons) in Hlt; auto.
      apply order_gt_true in Hlt. congruence.
    + rewrite Forall_forall in Hall. by apply Hall.
Qed.

Lemma insert_stable a x (sorted : list A) :
  a ∈ l0 → x ∈ l0 → sorted ⊆ l0 → ordered comparefn sorted →
  filter (same_class comparefn a) (insert comparefn x sorted)
  = filter (same_class comparefn a) (sorted ++ [x]).
Proof.
  unfold ordered. intros Ha Hx.
  induction sorted as [|e sorted IH]; intros Hsub Hs; [done|].
  assert (e ∈ l0) as He by (apply Hsub; by left).
  assert (sorted ⊆ l0) as Hsub' by (intros y Hy; apply Hsub; by right).
  apply StronglySorted_inv in Hs as [Hs Hall]. cbn [insert].
  destruct (order_gt comparefn e x) eqn:Hgt.
  - apply order_gt_true in Hgt.
    apply (order_Gt_Lt _ _ Hcons) in Hgt; auto.
    rewrite filter_app.
    rewrite (filter_cons _ x (e :: sorted)), (filter_cons _ x []), filter_nil.
    assert (same_class comparefn a x →
            filter (same_class comparefn a) (e :: sorted) = []) as Hnone.
    { intros Hsame. apply ShortArraySort.filter_none.
      apply Forall_forall. intros y Hy.
      apply elem_of_cons in Hy as [->|Hy].
      - by apply (order_Lt_not_same _ _ Hcons a x e).
      - rewrite Forall_forall in Hall.
        apply (order_Lt_not_same _ _ Hcons a x y); auto.
        apply (order_Lt_not_after _ _ Hcons x e y); auto. }
    destruct (decide (same_class comparefn a x)) as [Hsame|Hdiff].
    + by rewrite Hnone.
    + by rewrite app_nil_r.
  - rewrite <- app_comm_cons, !(filter_cons _ e), IH by done.
    by destruct (decide (same_class comparefn a e)).
Qed.

Lemma foldl_insert_ordered (acc l : list A) :
  acc ⊆ l0 → l ⊆ l0 → ordered comparefn acc →
  ordered comparefn (foldl (λ sorted x, insert comparefn x sorted) acc l).
Proof.
  revert acc. induction l as [|x l IH]; intros acc Hacc Hl Hs; [done|].
  simpl. assert (x ∈ l0) as Hx by (apply Hl; by left).
  apply IH.
  - intros y Hy. rewrite insert_perm in Hy.
    apply elem_of_cons in Hy as [->|Hy]; auto.
  - intros y Hy. apply Hl. by right.
  - by apply insert_ordered.
Qed.

Lemma foldl_insert_stable a (acc l : list A) :
  a ∈ l0 → acc ⊆ l0 → l ⊆ l0 → ordered comparefn acc →
  filter (same_class comparefn a)
    (foldl (λ sorted x, insert comparefn x sorted) acc l)
  = filter (same_class comparefn a) (acc ++ l).
Proof.
  intros Ha. revert acc.
  induction l as [|x l IH]; intros acc Hacc Hl Hs; simpl.
  { by rewrite app_nil_r. }
  assert (x ∈ l0) as Hx by (apply Hl; by left).
  rewrite IH.
  - rewrite filter_app, insert_stable by done.
    by rewrite <- filter_app, <- app_assoc.
  - intros y Hy. rewrite insert_perm in Hy.
    apply elem_of_cons in Hy as [->|Hy]; auto.
  - intros y Hy. apply Hl. by right.
  - by apply insert_ordered.
Qed.

End laws.

Lemma insert_fmap {A B} (f : A → B) (comparefn : B → B → number) x (sorted : list A) :
  insert comparefn (f x) (f <$> sorted)
  = f <$> insert (λ x y, comparefn (f x) (f y)) x sorted.
Proof.
  induction sorted as [|e sorted IH]; [done|].
  rewrite fmap_cons. cbn [insert].
  change (order_gt comparefn (f e) (f x))
    with (order_gt (λ x y, comparefn (f x) (f y)) e x).
  destruct (order_gt _ e x); [done|]. by rewrite IH.
Qed.

Lemma foldl_insert_fmap {A B} (f : A → B) (comparefn : B → B → number)
    (acc l : list A) :
  foldl (λ sorted x, insert comparefn x sorted) (f <$> acc) (f <$> l)
  = f <$> foldl (λ sorted x, insert (λ x y, comparefn (f x) (f y)) x sorted)
            acc l.
Proof.
  revert acc. induction l as [|x l IH]; intros acc; [done|].
  rewrite fmap_cons. cbn [foldl]. by rewrite insert_fmap, IH.
Qed.

(** Straight insertion is a sort engine. *)
Definition engine : SortEngine.
Proof.
  refine {| Array_sort := @sort |}.
  - intros A comparefn l. apply insertion_sort_perm.
  - intros A B f comparefn l. apply (foldl_insert_fmap f comparefn [] l).
  - intros A comparefn l Hcons.
    apply (foldl_insert_ordered comparefn l Hcons);
      [by intros y Hy%elem_of_nil|done|constructor].
  - intros A comparefn l Hcons x Hx. unfold sort.
    rewrite (foldl_insert_stable comparefn l Hcons);
      [done|done|by intros y Hy%elem_of_nil|done|constructor].
Defined.

End InsertionSort.

(** ** Further laws of [ranker]

    What a caller can rely on besides the above: all for every engine,
    and all about the [ranker] of [src/generics.ts]. *)
Module RankerLaws.

(** A rank function that ignores the item and counts down with the
    number of calls made so far: the calls return 10, 9, 8, ... *)
Definition rank_countdown (x : string) : Eff nat string number :=
  λ calls, (Value (Fin (10 - inject_Z (Z.of_nat calls))%Q), S calls).

(** The comparator of a sort of the items themselves:
    [(a, b) => rank(a) - rank(b)]. *)
Definition compare_by {T} (rank : T → number) (a b : T) : number :=
  num_sub (rank a) (rank b).

(** The ranks doubled (NaN and the infinities stay as they are). *)
Definition double (v : number) : number :=
  match v with
  | Fin q => Fin (2 * q)%Q
  | v => v
  end.

(** No two items of [items] have equal ranks. *)
Definition distinct_ranks {T} (rank : T → number) (items : list T) : Prop :=
  ∀ i j x y, items !! i = Some x → items !! j = Some y →
    num_eqb (rank x) (rank y) = true → i = j.

(** *** Helpers *)

Lemma ranker_ext `{SortEngine} {T} (items : list T) (rank1 rank2 : T → number) :
  (∀ x, x ∈ items → rank1 x = rank2 x) →
  ranker items rank1 = ranker items rank2.
Proof.
  intros Hext. unfold ranker. do 2 f_equal.
  apply list_fmap_ext. intros i x Hx. unfold decorate.
  by rewrite (Hext x) by by eapply list_elem_of_lookup_2.
Qed.

(** The decorated result is the sorted decorated input. *)
Lemma decorate_ranker `{SortEngine} {T} (items : list T) (rank : T → number) :
  decorate rank <$> ranker items rank
  = Array_sort compare_rank (decorate rank <$> items).
Proof.
  unfold ranker. rewrite <- list_fmap_compose.
  rewrite <- (list_fmap_id (Array_sort _ _)) at 2.
  apply list_fmap_ext. intros i a Ha. apply list_elem_of_lookup_2 in Ha.
  by apply sorted_decorated in Ha as (x & -> & _).
Qed.

Lemma sorted_no_NaN `{SortEngine} {T} (items : list T) (rank : T → number) :
  (∀ x, x ∈ items → rank x ≠ NaN) →
  ∀ x, x ∈ ranker items rank → rank x ≠ NaN.
Proof. intros Hnan x Hx. apply Hnan. by rewrite <- (ranker_perm items rank). Qed.

(** An input whose decoration is in sort order for a consistent
    comparator comes back as it is. *)
Lemma ranker_of_ordered `{SortEngine} {T} (items : list T) (rank : T → number) :
  consistent compare_rank (decorate rank <$> items) →
  ordered compare_rank (decorate rank <$> items) →
  ranker items rank = items.
Proof.
  intros Hcons Hord. unfold ranker.
  rewrite <- (item_decorate rank items) at 2. f_equal.
  apply (ordered_stable_unique compare_rank (decorate rank <$> items)); auto.
  - intros a Ha. by rewrite Array_sort_perm in Ha.
  - apply Array_sort_perm.
  - by apply Array_sort_ordered.
  - intros a Ha. rewrite Array_sort_perm in Ha. by apply Array_sort_stable.
Qed.

(** The result is sorted by rank (no claim theorem is used here). *)
Lemma ranker_sorted_by_rank `{SortEngine} {T} (items : list T) (rank : T → number) :
  (∀ x, x ∈ items → rank x ≠ NaN) →
  sorted_by_rank rank (ranker items rank).
Proof.
  intros Hnan i j x y Hij Hi Hj.
  assert ((decorate rank <$> ranker items rank) !! i = Some (decorate rank x))
    as Ha by by rewrite list_lookup_fmap, Hi.
  assert ((decorate rank <$> ranker items rank) !! j = Some (decorate rank y))
    as Hb by by rewrite list_lookup_fmap, Hj.
  rewrite decorate_ranker in Ha, Hb.
  pose proof (Array_sort_ordered compare_rank _
                (decorate_consistent rank items Hnan)) as Hord.
  pose proof (ordered_lookup _ _ i j _ _ Hord Hij Ha Hb) as Hab.
  unfold not_after in Hab.
  assert (rank x ≠ NaN ∧ rank y ≠ NaN) as [Hx Hy].
  { split; apply (sorted_no_NaN items rank Hnan);
      by eapply list_elem_of_lookup_2. }
  destruct (num_compare_is_Some (rank y) (rank x)) as [c Hc]; auto.
  apply (num_leb_compare _ _ c Hc).
  by rewrite (sort_order_compare_rank (decorate rank y) (decorate rank x) c Hc)
    in Hab.
Qed.

(** *** Ranking twice *)

Lemma ranker_twice `{SortEngine} {T} (items : list T) (rank : T → number) :
  (∀ x, x ∈ items → rank x ≠ NaN) →
  ranker (ranker items rank) rank = ranker items rank.
Proof.
  intros Hnan. apply ranker_of_ordered; rewrite decorate_ranker.
  - apply compare_rank_consistent. intros a Ha.
    apply sorted_decorated in Ha as (x & -> & Hx). simpl. auto.
  - apply Array_sort_ordered. by apply decorate_consistent.
Qed.

(** X1: ranking the result again changes nothing, when the rank
    function returns no NaN on the items. *)
Theorem ranker_idempotent `{SortEngine} {T} (items : list T) (rank : T → number) :
  (∀ x, x ∈ items → rank x ≠ NaN) →
  ranker (ranker items rank) rank = ranker items rank.
Proof.
  intros Hnan. apply ranker_of_ordered; rewrite decorate_ranker.
  - apply compare_rank_consistent. intros a Ha.
    apply sorted_decorated in Ha as (x & -> & Hx). simpl. auto.
  - apply Array_sort_ordered. by apply decorate_consistent.
Qed.

Lemma ranker_idempotent_witness :
  @ranker ShortArraySort.engine _
    (@ranker ShortArraySort.engine _ pokemon hp) hp
  = @ranker ShortArraySort.engine _ pokemon hp.
Proof.
  apply (@ranker_idempotent ShortArraySort.engine _ pokemon hp pokemon_no_NaN).
Defined.

(** *** The engine does not matter *)

(** X2: when the rank function returns no NaN on the items, the result
    is the same on every engine. *)
Theorem ranker_engine_independent (E1 E2 : SortEngine) {T}
    (items : list T) (rank : T → number) :
  (∀ x, x ∈ items → rank x ≠ NaN) →
  @ranker E1 T items rank = @ranker E2 T items rank.
Proof.
  intros Hnan. unfold ranker. f_equal.
  pose proof (decorate_consistent rank items Hnan) as Hcons.
  apply (ordered_stable_unique compare_rank (decorate rank <$> items)); auto.
  - intros a Ha. by rewrite Array_sort_perm in Ha.
  - by rewrite !Array_sort_perm.
  - by apply Array_sort_ordered.
  - by apply Array_sort_ordered.
  - intros a Ha. rewrite Array_sort_perm in Ha.
    by rewrite !Array_sort_stable.
Qed.

Lemma ranker_engine_independent_witness :
  @ranker ShortArraySort.engine _ pokemon hp
  = @ranker InsertionSort.engine _ pokemon hp.
Proof.
  apply (ranker_engine_independent ShortArraySort.engine InsertionSort.engine
           pokemon hp pokemon_no_NaN).
Defined.

(** With a NaN among the ranks the two engines of this file return
    different results: the hypothesis cannot be dropped. *)
Example ranker_engines_differ_with_NaN :
  @ranker ShortArraySort.engine _ [0; 1; 2; 3; 4; 5; 6; 7] rank_with_NaN
  = [0; 1; 2; 7; 3; 4; 5; 6]
  ∧ @ranker InsertionSort.engine _ [0; 1; 2; 3; 4; 5; 6; 7] rank_with_NaN
    = [0; 1; 2; 5; 7; 3; 4; 6].
Proof. by vm_compute. Qed.

(** *** Items that the ranks do not order *)

Lemma unordered_reads_zero (a b : number) :
  num_ltb a b = false → num_ltb b a = false →
  num_sign (match num_sub a b with NaN => zero | v => v end) = Eq.
Proof.
  unfold num_ltb.
  destruct a as [| |x|], b as [| |y|]; simpl; try done.
  intros Hxy Hyx. unfold num_sign. simpl. rewrite Qcompare_sub_zero.
  rewrite <- Qcompare_antisym in Hyx.
  by destruct (x ?= y)%Q.
Qed.

(** X3: if no item has a rank less than the rank of another item (all
    ranks equal, all ranks NaN, or NaN next to one repeated value), the
    input comes back as it is. *)
Theorem ranker_unordered_unchanged `{SortEngine} {T}
    (items : list T) (rank : T → number) :
  (∀ x y, x ∈ items → y ∈ items → num_ltb (rank x) (rank y) = false) →
  ranker items rank = items.
Proof.
  intros Hun.
  assert (∀ a b, a ∈ decorate rank <$> items → b ∈ decorate rank <$> items →
            sort_order compare_rank a b = Eq) as Hzero.
  { intros a b (x & -> & Hx)%list_elem_of_fmap (y & -> & Hy)%list_elem_of_fmap.
    apply unordered_reads_zero; simpl; auto. }
  apply ranker_of_ordered.
  - split.
    + intros a Ha. by apply Hzero.
    + intros a b Ha Hb _. by apply Hzero.
    + intros o a b c Ha Hb Hc Hab _. rewrite Hzero in Hab by done.
      subst o. by apply Hzero.
  - apply ordered_of_lookup. intros i j a b _ Hi Hj. unfold not_after.
    rewrite Hzero; [done|by eapply list_elem_of_lookup_2..].
Qed.

Lemma ranker_unordered_unchanged_witness :
  @ranker ShortArraySort.engine _ [3; 1; 2] (λ _ : nat, NaN) = [3; 1; 2].
Proof.
  apply (@ranker_unordered_unchanged ShortArraySort.engine _ [3; 1; 2]
           (λ _ : nat, NaN)).
  intros x y _ _. reflexivity.
Defined.

(** *** Distinct ranks *)

Lemma class_singleton {A} (comparefn : A → A → number) (l : list A) a :
  NoDup l → a ∈ l → same_class comparefn a a →
  (∀ b, b ∈ l → same_class comparefn a b → b = a) →
  filter (same_class comparefn a) l = [a].
Proof.
  intros Hnd Ha Haa Huniq.
  apply list_elem_of_split in Ha as (l1 & l2 & ->).
  apply NoDup_app in Hnd as (_ & Hl1 & Hnd2).
  apply NoDup_cons in Hnd2 as [Hl2 _].
  rewrite filter_app, filter_cons_True by done.
  rewrite (ShortArraySort.filter_none _ l1), (ShortArraySort.filter_none _ l2);
    [done|..].
  - apply Forall_forall. intros b Hb Hab.
    rewrite (Huniq b) in Hb; [done| |done].
    apply elem_of_app. right. by right.
  - apply Forall_forall. intros b Hb Hab.
    rewrite (Huniq b) in Hb; [|by apply elem_of_app; left|done].
    apply (Hl1 a Hb). by left.
Qed.

Lemma distinct_ranks_decorated {T} (rank : T → number) (items : list T) :
  (∀ x, x ∈ items → rank x ≠ NaN) → distinct_ranks rank items →
  NoDup (decorate rank <$> items)
  ∧ ∀ a b, a ∈ decorate rank <$> items → b ∈ decorate rank <$> items →
      same_class compare_rank a b → b = a.
Proof.
  intros Hnan Hdist. split.
  - apply NoDup_fmap_2_strong.
    + intros x y _ _ Hxy. by injection Hxy.
    + apply NoDup_alt. intros i j x Hi Hj. apply (Hdist i j x x Hi Hj).
      apply num_eqb_compare, num_compare_refl, Hnan.
      by eapply list_elem_of_lookup_2.
  - intros a b (x & -> & Hx)%list_elem_of_fmap (y & -> & Hy)%list_elem_of_fmap.
    unfold same_class.
    destruct (num_compare_is_Some (rank x) (rank y)) as [c Hc]; auto.
    rewrite (sort_order_compare_rank (decorate rank x) (decorate rank y) c Hc).
    intros ->. apply num_eqb_compare in Hc.
    apply list_elem_of_lookup in Hx as [i Hi].
    apply list_elem_of_lookup in Hy as [j Hj].
    pose proof (Hdist i j x y Hi Hj Hc) as ->. congruence.
Qed.

(** X4: when the ranks of the items are pairwise different (and none is
    NaN), the result does not depend on the order of the input: two
    inputs with the same items give the same result. *)
Theorem ranker_input_order_irrelevant `{SortEngine} {T}
    (items1 items2 : list T) (rank : T → number) :
  (∀ x, x ∈ items1 → rank x ≠ NaN) → distinct_ranks rank items1 →
  items1 ≡ₚ items2 →
  ranker items1 rank = ranker items2 rank.
Proof.
  intros Hnan Hdist Hperm. unfold ranker. f_equal.
  assert (∀ x, x ∈ items2 → rank x ≠ NaN) as Hnan2.
  { intros x Hx. apply Hnan. by rewrite Hperm. }
  pose proof (decorate_consistent rank items1 Hnan) as Hcons.
  destruct (distinct_ranks_decorated rank items1 Hnan Hdist) as [Hnd Huniq].
  set (L1 := decorate rank <$> items1) in *.
  set (L2 := decorate rank <$> items2).
  assert (L2 ≡ₚ L1) as HL by (unfold L1, L2; by rewrite Hperm).
  apply (ordered_stable_unique compare_rank L1); auto.
  - intros a Ha. by rewrite Array_sort_perm in Ha.
  - by rewrite !Array_sort_perm.
  - by apply Array_sort_ordered.
  - apply Array_sort_ordered. by apply decorate_consistent.
  - intros a Ha. rewrite Array_sort_perm in Ha.
    assert (same_class compare_rank a a) as Haa
      by by apply (consistent_refl _ _ Hcons).
    rewrite !class_singleton; auto.
    + by rewrite Array_sort_perm, HL.
    + by rewrite Array_sort_perm, HL.
    + intros b Hb. rewrite Array_sort_perm, HL in Hb. by apply Huniq.
    + by rewrite Array_sort_perm.
    + by rewrite Array_sort_perm.
    + intros b Hb. rewrite Array_sort_perm in Hb. by apply Huniq.
Qed.


Lemma pokemon_distinct : distinct_ranks hp pokemon.
Proof.
  intros i j x y Hi Hj. unfold pokemon in *.
  destruct i as [|[|i]]; destruct j as [|[|j]]; simplify_eq/=; done.
Defined.

Lemma ranker_input_order_irrelevant_witness :
  @ranker ShortArraySort.engine _ pokemon hp
  = @ranker ShortArraySort.engine _ (reverse pokemon) hp.
Proof.
  apply (@ranker_input_order_irrelevant ShortArraySort.engine _
           pokemon (reverse pokemon) hp pokemon_no_NaN pokemon_distinct).
  symmetry. apply reverse_Permutation.
Defined.

(** *** The ends of the result *)

(** X5: when the rank function returns no NaN on the items, the first
    item of the result has the least rank of all items and the last one
    the greatest. *)
Theorem ranker_first_last `{SortEngine} {T} (items : list T) (rank : T → number) :
  (∀ x, x ∈ items → rank x ≠ NaN) →
  (∀ x rest, ranker items rank = x :: rest →
     ∀ y, y ∈ items → num_leb (rank x) (rank y) = true)
  ∧ (∀ z init, ranker items rank = init ++ [z] →
     ∀ y, y ∈ items → num_leb (rank y) (rank z) = true).
Proof.
  intros Hnan. pose proof (ranker_sorted_by_rank items rank Hnan) as Hs.
  assert (∀ y, y ∈ items → num_leb (rank y) (rank y) = true) as Hrefl.
  { intros y Hy. unfold num_leb. by rewrite num_compare_refl by auto. }
  split.
  - intros x rest Heq y Hy. rewrite <- (ranker_perm items rank) in Hy.
    rewrite Heq in Hs, Hy.
    apply elem_of_cons in Hy as [->|Hy].
    + apply Hrefl. rewrite <- (ranker_perm items rank), Heq. by left.
    + apply list_elem_of_lookup in Hy as [j Hj].
      apply (Hs 0 (S j)); [lia|done..].
  - intros z init Heq y Hy. rewrite <- (ranker_perm items rank) in Hy.
    rewrite Heq in Hs, Hy.
    apply elem_of_app in Hy as [Hy|Hy].
    + apply list_elem_of_lookup in Hy as [i Hi].
      pose proof (lookup_lt_Some _ _ _ Hi) as Hlt.
      apply (Hs i (length init)); [done|by rewrite lookup_app_l|].
      by rewrite list_lookup_middle.
    + apply list_elem_of_singleton in Hy as ->.
      apply Hrefl. rewrite <- (ranker_perm items rank), Heq.
      apply elem_of_app. right. by left.
Qed.

Lemma ranker_first_last_witness :
  num_leb (hp (mkPokemon "Megaasaur" (Fin 5%Q)))
    (hp (mkPokemon "Bulbasaur" (Fin 20%Q))) = true.
Proof.
  apply (proj1 (@ranker_first_last ShortArraySort.engine _ pokemon hp
                  pokemon_no_NaN)
           (mkPokemon "Megaasaur" (Fin 5%Q)) [mkPokemon "Bulbasaur" (Fin 20%Q)]).
  - by vm_compute.
  - unfold pokemon. by left.
Defined.

(** *** Only the ranks decide *)

(** X6: the rearrangement depends on the ranks alone: two inputs whose
    items have, place by place, the same ranks are rearranged in the
    same way, whatever the items are and whatever the ranks are (NaN
    included). *)
Theorem ranker_positions_by_ranks `{SortEngine} {T1 T2}
    (items1 : list T1) (rank1 : T1 → number)
    (items2 : list T2) (rank2 : T2 → number) :
  rank1 <$> items1 = rank2 <$> items2 →
  ranker_positions items1 rank1 = ranker_positions items2 rank2.
Proof.
  assert (∀ T (items : list T) (rank : T → number),
            ranker_positions items rank
            = ranker_positions (rank <$> items) (λ r, r)) as Hcanon.
  { intros T items rank. unfold ranker_positions.
    set (f := λ p : nat * T, (fst p, rank (snd p))).
    assert (tagged (rank <$> items) = f <$> tagged items) as ->.
    { unfold tagged. rewrite imap_fmap, fmap_imap. by apply imap_ext. }
    rewrite ranker_natural, <- list_fmap_compose.
    rewrite (ranker_ext (tagged items) (rank ∘ snd) ((λ r, r) ∘ snd ∘ f))
      by done.
    by apply list_fmap_ext. }
  intros Heq. by rewrite (Hcanon T1), (Hcanon T2), Heq.
Qed.

Lemma ranker_positions_by_ranks_witness :
  @ranker_positions ShortArraySort.engine _ pokemon hp
  = @ranker_positions ShortArraySort.engine _ [20; 5]%Z (λ z, Fin (inject_Z z)).
Proof.
  apply (@ranker_positions_by_ranks ShortArraySort.engine).
  reflexivity.
Defined.

(** *** A rank function with state *)

(** X7: the order is decided by the values the calls of [rank]
    returned, also when [rank] depends on state: if the calls on the
    items return [rs] (no NaN among them) and leave the state [s'],
    then [ranker] returns in the state [s'], and its result is the
    items, each paired with the value its call returned, in ascending
    order of these values. *)
Theorem ranker_eff_orders_by_returned_values `{SortEngine} {St E T}
    (items : list T) (rank : T → Eff St E number) (s s' : St) (rs : list number) :
  Array_map rank items s = (Value rs, s') →
  (∀ r, r ∈ rs → r ≠ NaN) →
  ∃ sorted : list (Rank T),
    ranker_eff items rank s = (Value (item <$> sorted), s')
    ∧ sorted ≡ₚ zip_with mkRank items rs
    ∧ ∀ i j a b, i < j → sorted !! i = Some a → sorted !! j = Some b →
        num_leb (Ranker.rank a) (Ranker.rank b) = true.
Proof.
  intros Hrs Hnan.
  exists (Array_sort compare_rank (zip_with mkRank items rs)).
  rewrite ranker_eff_unfold, Hrs. split; [done|].
  split; [apply Array_sort_perm|].
  assert (∀ a, a ∈ zip_with mkRank items rs → Ranker.rank a ≠ NaN) as Hnan'.
  { intros a (i & x & r & -> & Hx & Hr)%elem_of_lookup_zip_with. simpl.
    apply Hnan. by eapply list_elem_of_lookup_2. }
  pose proof (Array_sort_ordered compare_rank _
                (compare_rank_consistent _ Hnan')) as Hord.
  intros i j a b Hij Hi Hj.
  pose proof (ordered_lookup _ _ i j a b Hord Hij Hi Hj) as Hab.
  unfold not_after in Hab.
  apply list_elem_of_lookup_2 in Hi, Hj. rewrite Array_sort_perm in Hi, Hj.
  destruct (num_compare_is_Some (Ranker.rank b) (Ranker.rank a)) as [c Hc]; auto.
  apply (num_leb_compare _ _ c Hc).
  by rewrite (sort_order_compare_rank b a c Hc) in Hab.
Qed.

(** With [rank_countdown] the calls return 10, 9, 8: the items come
    back in reverse. *)
Example ranker_countdown_example :
  @ranker_eff ShortArraySort.engine _ _ _ ["a"; "b"; "c"] rank_countdown 0
  = (Value ["c"; "b"; "a"], 3).
Proof. by vm_compute. Qed.

Lemma ranker_eff_orders_by_returned_values_witness :
  ∃ sorted : list (Rank string),
    @ranker_eff ShortArraySort.engine _ _ _ ["a"; "b"; "c"] rank_countdown 0
    = (Value (item <$> sorted), 3)
    ∧ sorted ≡ₚ zip_with mkRank ["a"; "b"; "c"]
                  [Fin (10 - inject_Z 0)%Q; Fin (10 - inject_Z 1)%Q;
                   Fin (10 - inject_Z 2)%Q]
    ∧ ∀ i j a b, i < j → sorted !! i = Some a → sorted !! j = Some b →
        num_leb (Ranker.rank a) (Ranker.rank b) = true.
Proof.
  apply (@ranker_eff_orders_by_returned_values ShortArraySort.engine _ _ _
           ["a"; "b"; "c"] rank_countdown 0 3).
  - reflexivity.
  - intros r Hr.
    repeat (apply elem_of_cons in Hr as [->|Hr]; [done|]).
    by apply elem_of_nil in Hr.
Defined.

(** *** Calling [ranker] again on the same array *)

Lemma ranker_heap_run `{SortEngine} {T}
    (items : loc) (rank : T → number) (h : gmap loc (array_obj T)) elems :
  h !! items = Some (ItemArray elems) →
  ∃ out h',
    ranker_heap items rank h = Some (out, h')
    ∧ h !! out = None
    ∧ h' !! out = Some (ItemArray (ranker elems rank))
    ∧ ∀ l o, h !! l = Some o → h' !! l = Some o.
Proof.
  intros Hitems. unfold ranker_heap. rewrite Hitems.
  set (L := decorate rank <$> elems).
  pose proof (alloc_fresh h (RankArray L)) as Hranks.
  unfold alloc in *. simpl in Hranks.
  set (ranks := fresh (dom h)) in *.
  set (h1 := <[ranks := RankArray L]> h).
  set (h2 := alter sort_in_place ranks h1).
  assert (h2 !! ranks = Some (RankArray (Array_sort compare_rank L))) as Hh2.
  { unfold h2, h1. by rewrite lookup_alter_eq, lookup_insert_eq. }
  rewrite Hh2.
  pose proof (alloc_fresh h2 (ItemArray (item <$> Array_sort compare_rank L)))
    as Hout.
  unfold alloc in Hout. simpl in Hout.
  set (out := fresh (dom h2)) in *.
  assert (∀ l o, h !! l = Some o → h2 !! l = Some o) as Hframe.
  { intros l o Hl. assert (l ≠ ranks) by congruence.
    unfold h2, h1. by rewrite lookup_alter_ne, lookup_insert_ne. }
  assert (∀ l o, h !! l = Some o → l ≠ out) as Hne.
  { intros l o Hl ->. apply Hframe in Hl. congruence. }
  eexists out, _. split; [reflexivity|]. repeat split.
  - destruct (h !! out) as [o|] eqn:Ho; [|done]. by destruct (Hne out o).
  - by rewrite lookup_insert_eq.
  - intros l o Hl.
    rewrite lookup_insert_ne by (symmetry; by eapply Hne). by apply Hframe.
Qed.

(** X8: two calls on the same input array return two different
    arrays with the same contents; the second call leaves the result
    of the first one, and the input, as they are.  Ranking the result
    array of the first call gives a third array with, for ranks
    without NaN, the same contents again. *)
Theorem ranker_heap_again `{SortEngine} {T}
    (items : loc) (rank : T → number) (h : gmap loc (array_obj T)) elems :
  h !! items = Some (ItemArray elems) →
  (∀ x, x ∈ elems → rank x ≠ NaN) →
  ∃ out1 h1 out2 h2 out3 h3,
    ranker_heap items rank h = Some (out1, h1)
    ∧ ranker_heap items rank h1 = Some (out2, h2)
    ∧ ranker_heap out1 rank h2 = Some (out3, h3)
    ∧ out1 ≠ out2 ∧ out1 ≠ out3 ∧ out2 ≠ out3
    ∧ h3 !! items = Some (ItemArray elems)
    ∧ h3 !! out1 = Some (ItemArray (ranker elems rank))
    ∧ h3 !! out2 = Some (ItemArray (ranker elems rank))
    ∧ h3 !! out3 = Some (ItemArray (ranker elems rank)).
Proof.
  intros Hitems Hnan.
  destruct (ranker_heap_run items rank h elems Hitems)
    as (out1 & h1 & Hrun1 & Hnew1 & Hout1 & Hframe1).
  pose proof (Hframe1 _ _ Hitems) as Hitems1.
  destruct (ranker_heap_run items rank h1 elems Hitems1)
    as (out2 & h2 & Hrun2 & Hnew2 & Hout2 & Hframe2).
  pose proof (Hframe2 _ _ Hout1) as Hout12.
  destruct (ranker_heap_run out1 rank h2 _ Hout12)
    as (out3 & h3 & Hrun3 & Hnew3 & Hout3 & Hframe3).
  rewrite ranker_twice in Hout3 by done.
  exists out1, h1, out2, h2, out3, h3.
  repeat split; auto; congruence.
Qed.

Lemma ranker_heap_again_witness :
  ∃ out1 h1 out2 h2 out3 h3,
    @ranker_heap ShortArraySort.engine _ 1%positive hp
      {[ 1%positive := ItemArray pokemon ]} = Some (out1, h1)
    ∧ @ranker_heap ShortArraySort.engine _ 1%positive hp h1 = Some (out2, h2)
    ∧ @ranker_heap ShortArraySort.engine _ out1 hp h2 = Some (out3, h3)
    ∧ out1 ≠ out2 ∧ out1 ≠ out3 ∧ out2 ≠ out3
    ∧ h3 !! 1%positive = Some (ItemArray pokemon)
    ∧ h3 !! out1
      = Some (ItemArray (@ranker ShortArraySort.engine _ pokemon hp))
    ∧ h3 !! out2
      = Some (ItemArray (@ranker ShortArraySort.engine _ pokemon hp))
    ∧ h3 !! out3
      = Some (ItemArray (@ranker ShortArraySort.engine _ pokemon hp)).
Proof.
  apply (@ranker_heap_again ShortArraySort.engine _ 1%positive hp
           {[ 1%positive := ItemArray pokemon ]} pokemon).
  - apply lookup_singleton_eq.
  - exact pokemon_no_NaN.
Defined.

(** *** Decoration is invisible *)

Lemma ranker_direct `{SortEngine} {T} (items : list T) (rank : T → number) :
  ranker items rank = Array_sort (compare_by rank) items.
Proof.
  unfold ranker. rewrite Array_sort_natural.
  change (λ x y, compare_rank (decorate rank x) (decorate rank y))
    with (compare_by rank).
  rewrite <- list_fmap_compose. apply list_fmap_id.
Qed.


(** *** Only the order of the ranks matters *)

Lemma filter_ext_in {A} (P Q : A → Prop)
    `{∀ x, Decision (P x)} `{∀ x, Decision (Q x)} (l : list A) :
  (∀ x, x ∈ l → P x ↔ Q x) → filter P l = filter Q l.
Proof.
  induction l as [|x l IH]; intros Hext; [done|].
  rewrite !filter_cons, IH by (intros y Hy; apply Hext; by right).
  destruct (decide (P x)) as [HP|HP], (decide (Q x)) as [HQ|HQ]; try done.
  - destruct HQ. by apply (Hext x); [left|].
  - destruct HP. by apply (Hext x); [left|].
Qed.

Lemma sort_order_compare_by {T} (rank : T → number) (x y : T) c :
  num_compare (rank x) (rank y) = Some c →
  sort_order (compare_by rank) x y = c.
Proof. apply num_sign_sub. Qed.

Lemma compare_by_consistent {T} (rank : T → number) (items : list T) :
  (∀ x, x ∈ items → rank x ≠ NaN) → consistent (compare_by rank) items.
Proof.
  intros Hnan. split.
  - intros a Ha. apply sort_order_compare_by, num_compare_refl. auto.
  - intros a b Ha Hb.
    destruct (num_compare_is_Some (rank a) (rank b)) as [c Hc]; auto.
    rewrite (sort_order_compare_by rank a b c Hc). intros ->.
    apply sort_order_compare_by. by apply num_compare_antisym in Hc.
  - intros o a b c Ha Hb Hc.
    destruct (num_compare_is_Some (rank a) (rank b)) as [o1 H1]; auto.
    destruct (num_compare_is_Some (rank b) (rank c)) as [o2 H2]; auto.
    rewrite (sort_order_compare_by rank a b o1 H1).
    rewrite (sort_order_compare_by rank b c o2 H2). intros -> ->.
    apply sort_order_compare_by. by eapply num_compare_trans.
Qed.

(** X11: two rank functions that order the items in the same way (the
    comparison of the ranks of any two items comes out the same; no
    NaN) give the same result: the ranks matter through their order
    only. *)
Theorem ranker_rank_order_only `{SortEngine} {T}
    (items : list T) (rank1 rank2 : T → number) :
  (∀ x, x ∈ items → rank1 x ≠ NaN) →
  (∀ x y, x ∈ items → y ∈ items →
     num_compare (rank1 x) (rank1 y) = num_compare (rank2 x) (rank2 y)) →
  ranker items rank1 = ranker items rank2.
Proof.
  intros Hnan1 Hsame.
  assert (∀ x, x ∈ items → rank2 x ≠ NaN) as Hnan2.
  { intros x Hx. pose proof (Hsame x x Hx Hx) as Hxx.
    rewrite num_compare_refl in Hxx by auto. symmetry in Hxx.
    by apply num_compare_not_NaN in Hxx as [? _]. }
  assert (∀ x y, x ∈ items → y ∈ items →
            sort_order (compare_by rank2) x y
            = sort_order (compare_by rank1) x y) as Hord.
  { intros x y Hx Hy.
    destruct (num_compare_is_Some (rank1 x) (rank1 y)) as [c Hc]; auto.
    rewrite (sort_order_compare_by rank1 x y c Hc).
    apply sort_order_compare_by. by rewrite <- Hsame. }
  pose proof (compare_by_consistent rank1 items Hnan1) as Hcons1.
  pose proof (compare_by_consistent rank2 items Hnan2) as Hcons2.
  rewrite !ranker_direct.
  apply (ordered_stable_unique (compare_by rank1) items); auto.
  - intros a Ha. by rewrite Array_sort_perm in Ha.
  - by rewrite !Array_sort_perm.
  - by apply Array_sort_ordered.
  - eapply ShortArraySort.StronglySorted_weaken;
      [|exact (Array_sort_ordered (compare_by rank2) items Hcons2)].
    intros x y Hx Hy. rewrite Array_sort_perm in Hx, Hy.
    unfold not_after. by rewrite Hord.
  - intros a Ha. rewrite Array_sort_perm in Ha.
    rewrite (Array_sort_stable _ _ Hcons1 a Ha).
    trans (filter (same_class (compare_by rank2) a)
             (Array_sort (compare_by rank2) items)).
    + rewrite (Array_sort_stable _ _ Hcons2 a Ha).
      apply filter_ext_in. intros b Hb. unfold same_class. by rewrite Hord.
    + apply filter_ext_in. intros b Hb. rewrite Array_sort_perm in Hb.
      unfold same_class. by rewrite Hord.
Qed.

Lemma ranker_rank_order_only_witness :
  @ranker ShortArraySort.engine _ pokemon hp
  = @ranker ShortArraySort.engine _ pokemon (double ∘ hp).
Proof.
  apply (@ranker_rank_order_only ShortArraySort.engine _ pokemon hp
           (double ∘ hp) pokemon_no_NaN).
  intros x y Hx Hy. unfold pokemon in Hx, Hy.
  repeat (apply elem_of_cons in Hx as [->|Hx]);
    try (by apply elem_of_nil in Hx);
    repeat (apply elem_of_cons in Hy as [->|Hy]);
    try (by apply elem_of_nil in Hy); reflexivity.
Defined.

(** *** Ranking a part, ranking in parts *)

Lemma consistent_subseteq {A} (comparefn : A → A → number) (l k : list A) :
  k ⊆ l → consistent comparefn l → consistent comparefn k.
Proof.
  intros Hs [Hr Hy Ht]. split.
  - intros a Ha. apply Hr; auto.
  - intros a b Ha Hb. apply Hy; auto.
  - intros o a b c Ha Hb Hc. apply Ht; auto.
Qed.

Lemma StronglySorted_filter {A} (R : relation A) (P : A → Prop)
    `{∀ x, Decision (P x)} (l : list A) :
  StronglySorted R l → StronglySorted R (filter P l).
Proof.
  induction 1 as [|a l Hs IH Hall]; [constructor|].
  rewrite filter_cons. destruct (decide (P a)); [|done].
  constructor; [done|]. rewrite Forall_forall in Hall.
  apply Forall_forall. intros y [_ Hy]%list_elem_of_filter. auto.
Qed.

(** Stability for the class of any element of the domain, in the
    sorted list or not. *)
Lemma stable_any_class `{SortEngine} {A} (comparefn : A → A → number)
    (l0 l : list A) x :
  consistent comparefn l0 → l ⊆ l0 → x ∈ l0 →
  filter (same_class comparefn x) (Array_sort comparefn l)
  = filter (same_class comparefn x) l.
Proof.
  intros Hcons Hl Hx.
  pose proof (consistent_subseteq _ _ _ Hl Hcons) as Hconsl.
  destruct (decide (Exists (same_class comparefn x) l)) as [Hex|Hno].
  - apply Exists_exists in Hex as (y & Hy & Hxy).
    assert (∀ b, b ∈ l → same_class comparefn x b ↔ same_class comparefn y b)
      as Hext.
    { intros b Hb. unfold same_class in *. split; intros Hb'.
      - apply (consistent_sym _ _ Hcons) in Hxy; auto.
        by apply (consistent_trans _ _ Hcons Eq y x b); auto.
      - by apply (consistent_trans _ _ Hcons Eq x y b); auto. }
    rewrite (filter_ext_in _ (same_class comparefn y) (Array_sort comparefn l)).
    + rewrite (Array_sort_stable _ _ Hconsl y Hy).
      symmetry. by apply filter_ext_in.
    + intros b Hb. rewrite Array_sort_perm in Hb. by apply Hext.
  - apply not_Exists_Forall in Hno; [|apply _].
    rewrite !ShortArraySort.filter_none; [done|done|].
    by rewrite Array_sort_perm.
Qed.

(** X12: leaving items out does not reorder the others: ranking the
    items that satisfy [P] gives the result of ranking all items with
    the items that do not satisfy [P] removed (ranks without NaN). *)
Theorem ranker_filter `{SortEngine} {T} (P : T → Prop) `{∀ x, Decision (P x)}
    (items : list T) (rank : T → number) :
  (∀ x, x ∈ items → rank x ≠ NaN) →
  ranker (filter P items) rank = filter P (ranker items rank).
Proof.
  intros Hnan. rewrite !ranker_direct.
  pose proof (compare_by_consistent rank items Hnan) as Hcons.
  assert (filter P items ⊆ items) as Hsub
    by (intros x Hx; by apply list_elem_of_filter in Hx as [_ ?]).
  apply (ordered_stable_unique (compare_by rank) items); auto.
  - intros a Ha. rewrite Array_sort_perm in Ha. auto.
  - by rewrite !Array_sort_perm.
  - apply Array_sort_ordered. by eapply consistent_subseteq.
  - apply StronglySorted_filter. by apply Array_sort_ordered.
  - intros a Ha. rewrite Array_sort_perm in Ha.
    rewrite (stable_any_class _ items) by auto.
    trans (filter P (filter (same_class (compare_by rank) a)
                       (Array_sort (compare_by rank) items))).
    + rewrite (Array_sort_stable _ _ Hcons a (Hsub a Ha)).
      rewrite !list_filter_filter. apply list_filter_iff. tauto.
    + rewrite !list_filter_filter. apply list_filter_iff. tauto.
Qed.

Lemma ranker_filter_witness :
  @ranker ShortArraySort.engine _
    (filter (λ p, pokemon_name p = "Bulbasaur") pokemon) hp
  = filter (λ p, pokemon_name p = "Bulbasaur")
      (@ranker ShortArraySort.engine _ pokemon hp).
Proof.
  apply (@ranker_filter ShortArraySort.engine _
           (λ p, pokemon_name p = "Bulbasaur") _ pokemon hp pokemon_no_NaN).
Defined.

(** X13: ranking in parts: ranking two inputs separately and then
    ranking the two results put one after the other gives what ranking
    the two inputs put one after the other gives (ranks without
    NaN). *)
Theorem ranker_app `{SortEngine} {T} (items1 items2 : list T) (rank : T → number) :
  (∀ x, x ∈ items1 ++ items2 → rank x ≠ NaN) →
  ranker (ranker items1 rank ++ ranker items2 rank) rank
  = ranker (items1 ++ items2) rank.
Proof.
  intros Hnan. rewrite !ranker_direct.
  pose proof (compare_by_consistent rank _ Hnan) as Hcons.
  set (cmp := compare_by rank) in *.
  assert (Array_sort cmp items1 ++ Array_sort cmp items2 ≡ₚ items1 ++ items2)
    as Hperm by by rewrite !Array_sort_perm.
  assert (Array_sort cmp items1 ++ Array_sort cmp items2 ⊆ items1 ++ items2)
    as Hsub by (intros x Hx; by rewrite <- Hperm).
  apply (ordered_stable_unique cmp (items1 ++ items2)); auto.
  - intros a Ha. rewrite Array_sort_perm in Ha. auto.
  - by rewrite !Array_sort_perm.
  - apply Array_sort_ordered. by eapply consistent_subseteq.
  - by apply Array_sort_ordered.
  - intros a Ha. rewrite Array_sort_perm in Ha. apply Hsub in Ha.
    rewrite (stable_any_class cmp (items1 ++ items2)) by auto.
    rewrite (stable_any_class cmp (items1 ++ items2) (items1 ++ items2))
      by auto.
    rewrite !filter_app.
    rewrite (stable_any_class cmp (items1 ++ items2) items1);
      [|done|by apply list_subseteq_app_l|done].
    rewrite (stable_any_class cmp (items1 ++ items2) items2);
      [done|done|by apply list_subseteq_app_r|done].
Qed.

Lemma ranker_app_witness :
  @ranker ShortArraySort.engine _
    (@ranker ShortArraySort.engine _ pokemon hp
     ++ @ranker ShortArraySort.engine _ pokemon hp) hp
  = @ranker ShortArraySort.engine _ (pokemon ++ pokemon) hp.
Proof.
  apply (@ranker_app ShortArraySort.engine _ pokemon pokemon hp).
  intros x [Hx|Hx]%elem_of_app; by apply pokemon_no_NaN.
Defined.

End RankerLaws.

(** ** Several cells of [simpleState] side by side

    The file creates two cells and uses them in turn.  Here any number
    of cells is created, one call of [simpleState] each, and any
    sequence of setter calls is run on them. *)
Module StateCells.

Section cells.
Context {T : Type}.

(** One call of [simpleState] for each initial value, in order; the
    result is the list of [[getter, setter]] pairs. *)
Fixpoint create_all (initials : list T) (σ : gmap positive T)
  : list ((gmap positive T → option T) * (T → gmap positive T → gmap positive T))
    * gmap positive T :=
  match initials with
  | [] => ([], σ)
  | initial :: rest =>
      let '(c, σ1) := SimpleState.simpleState initial σ in
      let '(cs, σ2) := create_all rest σ1 in
      (c :: cs, σ2)
  end.

(** A write [(i, v)] calls the setter of cell [i] with [v]; a write to
    a cell that was not created does nothing. *)
Definition run_writes
    (cells : list ((gmap positive T → option T)
                   * (T → gmap positive T → gmap positive T)))
    (writes : list (nat * T)) (σ : gmap positive T) : gmap positive T :=
  foldl (λ σ w, match cells !! fst w with
                | Some c => snd c (snd w) σ
                | None => σ
                end) σ writes.

(** Create the cells, run the writes, call the getter of cell [i]. *)
Definition read_after_writes (initials : list T) (writes : list (nat * T))
    (σ : gmap positive T) (i : nat) : option T :=
  let '(cells, σ') := create_all initials σ in
  c ← cells !! i; fst c (run_writes cells writes σ').

(** The same writes on plain variables, held in a list. *)
Definition write_values (values : list T) (writes : list (nat * T)) : list T :=
  foldl (λ values w, <[fst w := snd w]> values) values writes.

(** The cell that lives at location [l]. *)
Definition cell_at (l : positive)
  : (gmap positive T → option T) * (T → gmap positive T → gmap positive T) :=
  (λ σ, σ !! l, λ v σ, <[l := v]> σ).

Lemma create_all_locations (initials : list T) (σ : gmap positive T) :
  ∃ locs,
    (create_all initials σ).1 = cell_at <$> locs
    ∧ NoDup locs
    ∧ (∀ l, l ∈ locs → σ !! l = None)
    ∧ (∀ i l, locs !! i = Some l → (create_all initials σ).2 !! l = initials !! i)
    ∧ length locs = length initials
    ∧ (∀ l v, σ !! l = Some v → (create_all initials σ).2 !! l = Some v).
Proof.
  revert σ. induction initials as [|initial rest IH]; intros σ.
  { exists []. split; [done|]. split; [constructor|].
    split; [by intros l Hl%elem_of_nil|]. by repeat split. }
  cbn [create_all]. unfold SimpleState.simpleState.
  set (val := fresh (dom σ)).
  assert (σ !! val = None) as Hval by apply not_elem_of_dom, is_fresh.
  destruct (IH (<[val := initial]> σ))
    as (locs & Hcells & Hnd & Hnew & Hread & Hlen & Hframe).
  destruct (create_all rest (<[val := initial]> σ)) as [cs σ2]. simpl in *.
  assert (val ∉ locs) as Hnotin.
  { intros Hin. apply Hnew in Hin. by rewrite lookup_insert_eq in Hin. }
  exists (val :: locs). repeat split.
  - by rewrite Hcells.
  - by constructor.
  - intros l [->|Hl]%elem_of_cons; [done|].
    apply Hnew in Hl. destruct (decide (l = val)) as [->|Hne]; [done|].
    by rewrite lookup_insert_ne in Hl.
  - intros [|i] l Hl; simpl in *.
    + simplify_eq. apply Hframe. by rewrite lookup_insert_eq.
    + by apply Hread.
  - simpl. by rewrite Hlen.
  - intros l v Hl. apply Hframe.
    rewrite lookup_insert_ne; [done|]. congruence.
Qed.

Lemma run_writes_values (locs : list positive) (writes : list (nat * T))
    (σ : gmap positive T) (values : list T) :
  NoDup locs → length values = length locs →
  (∀ i l, locs !! i = Some l → σ !! l = values !! i) →
  ∀ i l, locs !! i = Some l →
    run_writes (cell_at <$> locs) writes σ !! l
    = write_values values writes !! i.
Proof.
  intros Hnd. unfold run_writes, write_values. revert σ values.
  induction writes as [|[k v] writes IH]; intros σ values Hlen Hrel; [done|].
  cbn [foldl fst snd]. apply IH.
  - by rewrite length_insert.
  - intros j lj Hj. rewrite list_lookup_fmap.
    destruct (locs !! k) as [lk|] eqn:Hk; simpl.
    + destruct (decide (j = k)) as [->|Hne].
      * simplify_eq. rewrite lookup_insert_eq.
        rewrite list_lookup_insert_eq; [done|].
        rewrite Hlen. by eapply lookup_lt_Some.
      * rewrite list_lookup_insert_ne by done.
        rewrite lookup_insert_ne; [by apply Hrel|].
        intros ->. apply Hne. symmetry. by eapply NoDup_lookup.
    + rewrite list_insert_ge; [by apply Hrel|].
      rewrite Hlen. by apply lookup_ge_None.
Qed.

Lemma write_values_length (values : list T) (writes : list (nat * T)) :
  length (write_values values writes) = length values.
Proof.
  unfold write_values. revert values.
  induction writes as [|w writes IH]; intros values; [done|].
  simpl. by rewrite IH, length_insert.
Qed.

(** X9: cells made by [simpleState] behave as separate variables:
    after any sequence of setter calls on any of the cells, the getter
    of cell [i] returns what the same sequence of assignments leaves in
    variable [i] of a plain list of variables, that is the last value
    written to cell [i], or its initial value if it was never written,
    whatever was written to the other cells in between. *)
Theorem cells_behave_as_variables (initials : list T) (writes : list (nat * T))
    (σ : gmap positive T) (i : nat) :
  read_after_writes initials writes σ i = write_values initials writes !! i.
Proof.
  unfold read_after_writes.
  destruct (create_all_locations initials σ)
    as (locs & Hcells & Hnd & Hnew & Hread & Hlen & _).
  destruct (create_all initials σ) as [cells σ']. simpl in *. subst cells.
  rewrite list_lookup_fmap.
  destruct (locs !! i) as [l|] eqn:Hl; simpl.
  - by apply run_writes_values.
  - symmetry. apply lookup_ge_None. rewrite write_values_length, <- Hlen.
    by apply lookup_ge_None.
Qed.

End cells.

(** Two cells, three writes: cell 0 reads the second value written to
    it, cell 1 the only one. *)
Example cells_example :
  read_after_writes ["one"; "two"] [(0, "a"); (1, "b"); (0, "c")] ∅ 0 = Some "c"
  ∧ read_after_writes ["one"; "two"] [(0, "a"); (1, "b"); (0, "c")] ∅ 1 = Some "b".
Proof. by vm_compute. Qed.

End StateCells.
